(** * Grammar-correction pipeline: [split_text] and [correct_text]

    A shallow embedding of the two functions of the demo pipeline in
    notebooks/214-grammar-correction/214-grammar-correction.ipynb, and the
    properties of the segmentation and routing logic.

    - Python [str] values are lists of Unicode code points.
    - [re.split] is modelled by a small backtracking matcher over the
      constructs the pattern of [split_text] uses.
    - The two pipelines handed to [correct_text] are stateful, fallible
      collaborators; their calls are recorded in a trace.
    - Scores are binary64 floats, compared as Python compares them. *)

From Stdlib Require Import String Ascii List NArith ZArith Bool Arith Lia Floats.
Import ListNotations.

(** ** Python strings *)

(** A character is a code point; a string is the sequence of its code points. *)
Definition char : Set := N.
Definition str : Set := list char.

Definition ord (a : ascii) : char := N_of_ascii a.

(** [py "abc"] is the Python string literal ["abc"] (ASCII literals only). *)
Definition py (s : string) : str := map ord (list_ascii_of_string s).

(** [a == b] on strings. *)
Fixpoint str_eqb (a b : str) : bool :=
  match a, b with
  | [], [] => true
  | x :: a', y :: b' => N.eqb x y && str_eqb a' b'
  | _, _ => false
  end.

(** [sep.join(items)]. *)
Fixpoint join (sep : str) (items : list str) : str :=
  match items with
  | [] => []
  | [x] => x
  | x :: rest => x ++ sep ++ join sep rest
  end.

(** ** The fragment of Python's [re] that [split_text] uses *)

Module Re.

(** One-character pattern items. *)
Inductive cset : Set :=
| Lit (c : char)            (* a literal character *)
| Dot                       (* [.]: anything but a newline *)
| OneOf (cs : list char)    (* a bracket set listing its members *)
| Range (lo hi : char)      (* a bracket range lo-hi *)
| NotRange (lo hi : char).  (* a complemented bracket range *)

Definition in_range (lo hi c : char) : bool := (lo <=? c)%N && (c <=? hi)%N.

Definition cset_mem (s : cset) (c : char) : bool :=
  match s with
  | Lit x => N.eqb c x
  | Dot => negb (N.eqb c 10)
  | OneOf cs => existsb (N.eqb c) cs
  | Range lo hi => in_range lo hi c
  | NotRange lo hi => negb (in_range lo hi c)
  end.

Inductive regex : Set :=
| Set1 (s : cset)
| Cat (r1 r2 : regex)
| Plus (r : regex)          (* greedy one-or-more *)
| LookBehind (r : regex)    (* positive lookbehind *)
| LookAhead (r : regex).    (* positive lookahead *)

(** The number of characters a pattern consumes, when that is fixed;
    a lookbehind is only compiled for such a pattern. *)
Fixpoint width (r : regex) : option nat :=
  match r with
  | Set1 _ => Some 1
  | Cat r1 r2 =>
      match width r1, width r2 with
      | Some a, Some b => Some (a + b)
      | _, _ => None
      end
  | Plus _ => None
  | LookBehind _ | LookAhead _ => Some 0
  end.

(** A position in the subject is a zipper: the text before it, nearest
    character first, and the text from it on. A matcher lists the positions
    at which a match started at [(pre, suf)] can end, in the order in which
    backtracking tries them. *)
Definition matcher : Set := str -> str -> list (str * str).

(** Greedy repetition, one or more times: after a round of [m], further
    rounds are tried before stopping there. A round of the repeated item
    takes a character here, so [n] rounds, with [n] above the length of the
    text left, are never all used. *)
Fixpoint rep (m : matcher) (n : nat) (pre suf : str) : list (str * str) :=
  match n with
  | O => []
  | S n' => flat_map (fun ps => rep m n' (fst ps) (snd ps) ++ [ps]) (m pre suf)
  end.

Fixpoint matches (r : regex) (pre suf : str) {struct r} : list (str * str) :=
  match r with
  | Set1 s =>
      match suf with
      | c :: suf' => if cset_mem s c then [(c :: pre, suf')] else []
      | [] => []
      end
  | Cat r1 r2 =>
      flat_map (fun ps => matches r2 (fst ps) (snd ps)) (matches r1 pre suf)
  | Plus r1 => rep (matches r1) (S (length suf)) pre suf
  | LookAhead r1 =>
      match matches r1 pre suf with
      | [] => []
      | _ :: _ => [(pre, suf)]
      end
  | LookBehind r1 =>
      match width r1 with
      | Some w =>
          if w <=? length pre
          then match matches r1 (skipn w pre) (rev (firstn w pre) ++ suf) with
               | [] => []
               | _ :: _ => [(pre, suf)]
               end
          else []
      | None => []
      end
  end.

(** The match found at a position: the first one tried that succeeds. *)
Definition match_here (r : regex) (pre suf : str) : option (str * str) :=
  hd_error (matches r pre suf).

(** [search]: the leftmost position from [(pre, suf)] on at which the
    pattern matches. Returns the text skipped and the position after the
    match. *)
Fixpoint search (r : regex) (pre suf : str) : option (str * (str * str)) :=
  match match_here r pre suf with
  | Some after => Some ([], after)
  | None =>
      match suf with
      | [] => None
      | c :: suf' =>
          match search r (c :: pre) suf' with
          | Some (skipped, after) => Some (c :: skipped, after)
          | None => None
          end
      end
  end.

(** [re.split] for a pattern without groups: search from the end of the
    previous match, emit the text in between, and end with the rest. Every
    match of the pattern used here is non-empty, so each round shortens the
    rest and the fuel, the length of the text plus one, is never used up. *)
Fixpoint split_from (fuel : nat) (r : regex) (pre suf : str) : list str :=
  match fuel with
  | O => [suf]
  | S fuel' =>
      match search r pre suf with
      | None => [suf]
      | Some (skipped, (pre', suf')) => skipped :: split_from fuel' r pre' suf'
      end
  end.

Definition split (r : regex) (text : str) : list str :=
  split_from (S (length text)) r [] text.

End Re.

(** ** [split_text] *)

Import Re.

Local Open Scope char_scope.

(** The pattern [(?<=[^A-Z].[.?]) +(?=[A-Z])]. *)
Definition sentence_boundary : regex :=
  Cat (LookBehind (Cat (Set1 (NotRange (ord "A") (ord "Z")))
                  (Cat (Set1 Dot)
                       (Set1 (OneOf [ord "."; ord "?"])))))
 (Cat (Plus (Set1 (Lit (ord " "))))
      (LookAhead (Set1 (Range (ord "A") (ord "Z"))))).

Local Close Scope char_scope.

(** The [for] loop of [split_text]. [sentences] is the whole list, kept for
    [sentences[-1]]; [todo] is what the iteration has not reached yet. The
    loop body only runs when [sentences] is non-empty, so the default of
    [last] is never returned. *)
Fixpoint batch_loop (sentences todo : list str)
         (temp_batch : list str) (sentence_batches : list (list str))
  : list (list str) :=
  match todo with
  | [] => sentence_batches
  | sentence :: todo' =>
      let temp_batch := temp_batch ++ [sentence] in
      if (2 <=? length temp_batch) && (length temp_batch <=? 3)
         || str_eqb sentence (last sentences [])
      then batch_loop sentences todo' [] (sentence_batches ++ [temp_batch])
      else batch_loop sentences todo' temp_batch sentence_batches
  end.

Definition split_text (text : str) : list (list str) :=
  let sentences := Re.split sentence_boundary text in
  batch_loop sentences sentences [] [].

(** A batch as the loop can close it. *)
Definition batch_ok (batch : list str) : Prop :=
  1 <= length batch <= 2.

(** ** Sentence boundaries, stated by position

    The boundary rule read as a property of positions of the text: the
    characters before position [i], a run of spaces from [i] to [j], an
    uppercase letter at [j]. The rule is stated twice, once with the
    lookbehind as the pattern has it and once as the prose describes it. *)

Local Open Scope char_scope.

Definition is_upper (c : char) : bool := in_range (ord "A") (ord "Z") c.
Definition is_stop (c : char) : bool := N.eqb c (ord ".") || N.eqb c (ord "?").
Definition is_space (c : char) : bool := N.eqb c (ord " ").
Definition is_newline (c : char) : bool := N.eqb c 10.

Local Close Scope char_scope.

(** [text[i]] satisfies [p]; false when [i] is out of range. *)
Definition char_at (p : char -> bool) (text : str) (i : nat) : bool :=
  match nth_error text i with
  | Some c => p c
  | None => false
  end.

(** The number of spaces [s] starts with. *)
Fixpoint count_spaces (s : str) : nat :=
  match s with
  | c :: s' => if is_space c then S (count_spaces s') else 0
  | [] => 0
  end.

(** What stands before position [i], in the words of the description: a
    period or question mark that follows a non-uppercase character. *)
Definition behind_described (text : str) (i : nat) : bool :=
  (2 <=? i)
  && char_at (fun c => negb (is_upper c)) text (i - 2)
  && char_at is_stop text (i - 1).

(** What stands before position [i], as the pattern has it: a non-uppercase
    character, then any character but a newline, then the period or question
    mark. *)
Definition behind_pattern (text : str) (i : nat) : bool :=
  (3 <=? i)
  && char_at (fun c => negb (is_upper c)) text (i - 3)
  && char_at (fun c => negb (is_newline c)) text (i - 2)
  && char_at is_stop text (i - 1).

(** A boundary begins at [i] and ends at [boundary behind text i]: what
    [behind] asks for stands before [i], one or more spaces follow, and the
    first character after them is an uppercase letter. *)
Definition boundary (behind : str -> nat -> bool) (text : str) (i : nat)
  : option nat :=
  let n := count_spaces (skipn i text) in
  if behind text i && (1 <=? n) && char_at is_upper text (i + n)
  then Some (i + n)
  else None.

(** The boundary that begins at [i], if there is one, as a pair of its
    ends. *)
Definition boundary_span (behind : str -> nat -> bool) (text : str) (i : nat)
  : list (nat * nat) :=
  match boundary behind text i with
  | Some j => [(i, j)]
  | None => []
  end.

(** The boundaries among the positions [from], [from + 1], ... of the text,
    leftmost first. *)
Definition boundaries_from (behind : str -> nat -> bool) (text : str)
           (from : nat) : list (nat * nat) :=
  flat_map (boundary_span behind text) (seq from (length text - from)).

(** The pieces of the text between the given boundaries, and the rest. *)
Fixpoint cut (text : str) (from : nat) (bs : list (nat * nat)) : list str :=
  match bs with
  | [] => [skipn from text]
  | (i, j) :: bs' => firstn (i - from) (skipn from text) :: cut text j bs'
  end.

Definition split_at_boundaries (behind : str -> nat -> bool) (text : str)
  : list str :=
  cut text 0 (boundaries_from behind text 0).

(** The rule of the pattern once more, read at a position of the matcher:
    [pre] is the text before the position, nearest character first. Used to
    relate the matcher to the positions above. *)
Definition before_ok (pre : str) : bool :=
  match pre with
  | c3 :: c2 :: c1 :: _ => negb (is_upper c1) && negb (is_newline c2) && is_stop c3
  | _ => false
  end.

Definition ahead_upper (suf : str) : bool :=
  match suf with
  | c :: _ => is_upper c
  | [] => false
  end.

Definition boundary_here (pre suf : str) : option (str * str) :=
  let n := count_spaces suf in
  if before_ok pre && (1 <=? n) && ahead_upper (skipn n suf)
  then Some (rev (firstn n suf) ++ pre, skipn n suf)
  else None.

(** ** [correct_text] *)

(** An entry of the list a text-classification pipeline returns. *)
Record ClassificationResult : Set := { label : str; score : float }.

(** A call made to one of the two pipelines, with its argument. *)
Inductive call : Set :=
| CallChecker (raw_text : str)
| CallCorrector (raw_text : str).

(** What a call of [correct_text] can raise: what a pipeline raised, or the
    [IndexError] of taking item [0] of an empty result list. *)
Inductive error (E : Type) : Type :=
| Raised (e : E)
| IndexError.
Arguments Raised {E} e.
Arguments IndexError {E}.

Local Open Scope string_scope.

Definition LABEL_1 : str := py "LABEL_1".

(** The literal [0.9]: the binary64 number nearest to nine tenths. *)
Definition threshold : float := 0x1.ccccccccccccdp-1%float.

(** The score [0.8999], just below it. *)
Definition just_below : float := 0x1.ccbfb15b573ebp-1%float.

(** The test that guards the call of the corrector. *)
Definition needs_correction (result : ClassificationResult) : bool :=
  negb (str_eqb (label result) LABEL_1)
  || (str_eqb (label result) LABEL_1 && (score result <? threshold)%float).

(** The classification that lets a batch through unchanged, as the
    description words it: this label, with a score of at least [0.9]. *)
Definition confident (result : ClassificationResult) : Prop :=
  label result = LABEL_1 /\ (threshold <=? score result)%float = true.

Section Pipeline.

(** [W] is the state the two pipelines keep between calls, [E] what they
    may raise. Each returns a list, of which [correct_text] reads item 0:
    its label and score, or its generated text. The source gives
    [separator] the default [" "]; here it is always passed. *)
Variables W E : Type.
Variable checker : str -> W -> (E + list ClassificationResult) * W.
Variable corrector : str -> W -> (E + list str) * W.

(** The pipelines' state and the calls made so far, oldest first. *)
Record run : Type := { world : W; calls : list call }.

(** The calls made between two states of a run. *)
Definition calls_made (before after : run) : list call :=
  skipn (length (calls before)) (calls after).

(** Computations that call the pipelines and may raise. *)
Definition M (A : Type) : Type := run -> (error E + A) * run.

Definition ret {A} (a : A) : M A := fun st => (inr a, st).

Definition raise {A} (e : error E) : M A := fun st => (inl e, st).

Definition bind {A B} (m : M A) (k : A -> M B) : M B :=
  fun st =>
    match m st with
    | (inr a, st') => k a st'
    | (inl e, st') => (inl e, st')
    end.

Notation "x <- m ;; k" := (bind m (fun x => k))
  (at level 61, m at next level, right associativity).

(** [l[0]]. *)
Definition item0 {A} (l : list A) : M A :=
  match l with
  | x :: _ => ret x
  | [] => raise IndexError
  end.

Definition call_checker (raw_text : str) : M (list ClassificationResult) :=
  fun st =>
    let (r, w) := checker raw_text (world st) in
    let st' := {| world := w; calls := calls st ++ [CallChecker raw_text] |} in
    match r with
    | inr results => (inr results, st')
    | inl e => (inl (Raised e), st')
    end.

Definition call_corrector (raw_text : str) : M (list str) :=
  fun st =>
    let (r, w) := corrector raw_text (world st) in
    let st' := {| world := w; calls := calls st ++ [CallCorrector raw_text] |} in
    match r with
    | inr generated => (inr generated, st')
    | inl e => (inl (Raised e), st')
    end.

(** The body of the loop of [correct_text]: what is appended to
    [corrected_text] for one batch. *)
Definition correct_batch (batch : list str) : M str :=
  let raw_text := join (py " ") batch in
  results <- call_checker raw_text ;;
  result <- item0 results ;;
  if needs_correction result
  then corrected_batch <- call_corrector raw_text ;;
       item0 corrected_batch
  else ret raw_text.

(** The loop over the batches. The progress bar wrapped around the list
    yields the batches in order and is left out. *)
Fixpoint correct_loop (sentence_batches : list (list str))
         (corrected_text : list str) : M (list str) :=
  match sentence_batches with
  | [] => ret corrected_text
  | batch :: rest =>
      out <- correct_batch batch ;;
      correct_loop rest (corrected_text ++ [out])
  end.

Definition correct_text (text : str) (separator : str) : M str :=
  corrected_text <- correct_loop (split_text text) [] ;;
  ret (join separator corrected_text).

(** Not in the source: every batch in turn, the outputs collected in order.
    The loop with its accumulator is compared with it. *)
Fixpoint each_batch (batches : list (list str)) : M (list str) :=
  match batches with
  | [] => ret []
  | batch :: rest =>
      out <- correct_batch batch ;;
      outs <- each_batch rest ;;
      ret (out :: outs)
  end.

(** Not in the source: a pipeline raises [e] while [batch] is processed from
    [st]. The checker does, or the checker asks for a correction and the
    corrector does. The last argument is the state this leaves. *)
Inductive pipeline_raises (batch : list str) (st : run) (e : E)
  : run -> Prop :=
| checker_raises w' :
    checker (join (py " ") batch) (world st) = (inl e, w') ->
    pipeline_raises batch st e
      {| world := w';
         calls := calls st ++ [CallChecker (join (py " ") batch)] |}
| corrector_raises result more w1 w2 :
    checker (join (py " ") batch) (world st) = (inr (result :: more), w1) ->
    needs_correction result = true ->
    corrector (join (py " ") batch) w1 = (inl e, w2) ->
    pipeline_raises batch st e
      {| world := w2;
         calls := calls st ++ [CallChecker (join (py " ") batch);
                               CallCorrector (join (py " ") batch)] |}.

End Pipeline.

Arguments world {W} _.
Arguments calls {W} _.
Arguments ret {W E A} _ _.
Arguments raise {W E A} _ _.
Arguments bind {W E A B} _ _ _.
Arguments item0 {W E A} _ _.
Arguments call_checker {W E} _ _ _.
Arguments call_corrector {W E} _ _ _.
Arguments correct_batch {W E} _ _ _ _.
Arguments correct_loop {W E} _ _ _ _ _.
Arguments correct_text {W E} _ _ _ _ _.
Arguments each_batch {W E} _ _ _ _.
Arguments calls_made {W} _ _.
Arguments pipeline_raises {W E} _ _ _ _ _ _.

(** ** Pipelines to run the functions on

    Deterministic stand-ins: their state counts the calls made, and they
    raise a string. *)

Definition checker_says (l : str) (s : float)
  : str -> nat -> (str + list ClassificationResult) * nat :=
  fun _ n => (inr [{| label := l; score := s |}], S n).

(** A checker that answers twice and raises from the third call on, when no
    other call is made in between. *)
Definition checker_tires : str -> nat -> (str + list ClassificationResult) * nat :=
  fun _ n =>
    if (n <? 2)%nat
    then (inr [{| label := LABEL_1; score := threshold |}], S n)
    else (inl (py "checker down"), S n).

Definition corrector_marks : str -> nat -> (str + list str) * nat :=
  fun raw_text n => (inr [(py "[" ++ raw_text ++ py "]")%list], S n).

Definition corrector_fails : str -> nat -> (str + list str) * nat :=
  fun _ n => (inl (py "corrector down"), S n).

Definition fresh : run nat := {| world := 0; calls := [] |}.

Local Close Scope string_scope.

Local Open Scope string_scope.
Local Open Scope list_scope.

(** ** Further readings of the code

    Not in the source, except where a cell is named: shapes that the
    results of [split_text] and [correct_text] are compared with. *)

(** Consecutive pairs, with a single at the end of a list of odd length. *)
Fixpoint pairs {A : Type} (l : list A) : list (list A) :=
  match l with
  | a :: b :: rest => [a; b] :: pairs rest
  | [a] => [[a]]
  | [] => []
  end.

(** A first piece, then gap and piece in turn. *)
Fixpoint weave (first : str) (rest : list (str * str)) : str :=
  match rest with
  | [] => first
  | (gap, piece) :: rest' => first ++ gap ++ weave piece rest'
  end.

(** No two spaces side by side. *)
Fixpoint single_spaced (s : str) : bool :=
  match s with
  | a :: s' =>
      match s' with
      | b :: _ => negb (is_space a && is_space b) && single_spaced s'
      | [] => true
      end
  | [] => true
  end.

(** The calls one batch gives rise to: the checker, then the corrector if
    the batch is sent on to it, both on the joined sentences. *)
Definition batch_calls (batch : list str) (corrected : bool) : list call :=
  CallChecker (join (py " ") batch)
    :: (if corrected then [CallCorrector (join (py " ") batch)] else []).

(** The calls of a run of batches; [corrected] says, batch by batch, whether
    the corrector was called. *)
Fixpoint batches_calls (batches : list (list str)) (corrected : list bool)
  : list call :=
  match batches, corrected with
  | batch :: batches', c :: corrected' =>
      batch_calls batch c ++ batches_calls batches' corrected'
  | _, _ => []
  end.

(** The cell that tries the checker prints the label of a result this
    way. *)
Definition predicted_label (result : ClassificationResult) : str :=
  if str_eqb (label result) LABEL_1
  then py "contains_errors"
  else py "no errors".

(** The demo calls [correct_text] without a separator, so with [" "]. *)
Definition correct_text_default {W E : Type}
           (checker : str -> W -> (E + list ClassificationResult) * W)
           (corrector : str -> W -> (E + list str) * W)
           (text : str) : M W E str :=
  correct_text checker corrector text (py " ").

(** A checker that returns an empty list of results. *)
Definition checker_mute : str -> nat -> (str + list ClassificationResult) * nat :=
  fun _ n => (inr [], S n).

(** A corrector that returns an empty list of generated texts. *)
Definition corrector_mute : str -> nat -> (str + list str) * nat :=
  fun _ n => (inr [], S n).

Local Close Scope string_scope.

(** ** Strings and lists: basic facts *)

Lemma str_eqb_eq (a b : str) : str_eqb a b = true <-> a = b.
Proof.
  revert b; induction a as [|x a IH]; intros [|y b]; simpl;
    try (split; [discriminate | intros H; inversion H]); try tauto.
  rewrite andb_true_iff, N.eqb_eq, IH.
  split; [intros [-> ->]; reflexivity | intros H; inversion H; auto].
Qed.

Lemma str_eqb_refl (a : str) : str_eqb a a = true.
Proof. apply str_eqb_eq; reflexivity. Qed.

Lemma str_eqb_neq (a b : str) : str_eqb a b = false <-> a <> b.
Proof.
  rewrite <- str_eqb_eq. destruct (str_eqb a b); split; congruence.
Qed.

(** [re.split] never returns an empty list. *)
Lemma split_from_nonempty fuel r pre suf : split_from fuel r pre suf <> [].
Proof.
  destruct fuel as [|fuel]; simpl; [discriminate|].
  destruct (search r pre suf) as [[skipped [pre' suf']]|]; discriminate.
Qed.

Lemma split_nonempty r text : Re.split r text <> [].
Proof. apply split_from_nonempty. Qed.

(** ** The batching loop *)

Section BatchLoop.

Variable sentences : list str.

(** The loop hands on every sentence: what it has closed, what it holds
    and what it has yet to see make up the result, provided the sentence
    that ends [todo] is the one the loop compares against. *)
Lemma batch_loop_concat todo temp_batch sentence_batches :
  (todo <> [] -> last todo [] = last sentences []) ->
  (todo = [] -> temp_batch = []) ->
  concat (batch_loop sentences todo temp_batch sentence_batches)
  = concat sentence_batches ++ temp_batch ++ todo.
Proof.
  revert temp_batch sentence_batches.
  induction todo as [|sentence todo' IH]; intros tb sb Hlast Hend.
  - simpl. rewrite (Hend eq_refl). now rewrite !app_nil_r.
  - cbn [batch_loop].
    assert (Hnext : todo' <> [] -> last todo' [] = last sentences []).
    { intros Hne. rewrite <- Hlast by discriminate.
      destruct todo'; [congruence | reflexivity]. }
    destruct (_ || _) eqn:Hclose.
    + rewrite IH by (auto; reflexivity).
      rewrite concat_app. simpl. now rewrite !app_nil_r, <- !app_assoc.
    + rewrite IH; [now rewrite <- !app_assoc | exact Hnext |].
      intros ->. apply orb_false_iff in Hclose as [_ Hneq].
      rewrite <- Hlast in Hneq by discriminate. simpl in Hneq.
      now rewrite str_eqb_refl in Hneq.
Qed.

(** Run on the whole list from empty batches, the loop returns exactly the
    sentences, batch by batch. *)
Lemma batch_loop_covers :
  concat (batch_loop sentences sentences [] []) = sentences.
Proof.
  rewrite batch_loop_concat; reflexivity.
Qed.

(** The temporary batch never holds more than one sentence between two
    iterations, so a closed batch holds one or two. *)
Lemma batch_loop_sizes todo temp_batch sentence_batches :
  length temp_batch <= 1 ->
  Forall batch_ok sentence_batches ->
  Forall batch_ok (batch_loop sentences todo temp_batch sentence_batches).
Proof.
  revert temp_batch sentence_batches.
  induction todo as [|sentence todo' IH]; intros tb sb Hlen Hsb; [exact Hsb|].
  cbn [batch_loop].
  assert (Hl : length (tb ++ [sentence]) = S (length tb))
    by (rewrite length_app; simpl; lia).
  destruct (_ || _) eqn:Hclose.
  - apply IH; [simpl; lia|].
    apply Forall_app; split; [exact Hsb|].
    constructor; [unfold batch_ok; lia | constructor].
  - apply IH; [|exact Hsb].
    apply orb_false_iff in Hclose as [Hsize _]. rewrite Hl in *.
    destruct (length tb) as [|[|n]]; simpl in *; [lia | discriminate | lia].
Qed.

End BatchLoop.


(** ** The pattern, position by position *)

Lemma count_spaces_le s : count_spaces s <= length s.
Proof.
  induction s as [|c s IH]; simpl; [lia|]. destruct (is_space c); simpl; lia.
Qed.

(** The characters counted are spaces. *)
Lemma count_spaces_nth s k :
  k < count_spaces s -> exists c, nth_error s k = Some c /\ is_space c = true.
Proof.
  revert k; induction s as [|c s IH]; simpl; intros k Hk; [lia|].
  destruct (is_space c) eqn:Hc; [|lia].
  destruct k as [|k]; simpl; [eauto|]. apply IH; lia.
Qed.

(** The run of spaces followed by the lookahead: of all the ends the greedy
    repetition offers, only the end of the whole run can stand before an
    uppercase letter. *)
Lemma rep_spaces_then_upper n : forall pre suf,
  count_spaces suf < n ->
  flat_map (fun ps => matches (LookAhead (Set1 (Range (ord "A") (ord "Z"))))
                              (fst ps) (snd ps))
           (rep (matches (Set1 (Lit (ord " ")))) n pre suf)
  = let k := count_spaces suf in
    if (1 <=? k) && ahead_upper (skipn k suf)
    then [(rev (firstn k suf) ++ pre, skipn k suf)]
    else [].
Proof.
  induction n as [|n IH]; intros pre suf Hn; [lia|].
  cbn [rep matches]. destruct suf as [|c suf]; [reflexivity|].
  cbn [cset_mem count_spaces]. fold (is_space c).
  destruct (is_space c) eqn:Hc; [|reflexivity].
  cbn [flat_map fst snd]. rewrite app_nil_r, flat_map_app.
  simpl in Hn. rewrite Hc in Hn.
  rewrite IH by lia. cbn [flat_map matches app].
  cbn zeta. cbn [skipn firstn rev Nat.leb andb].
  destruct (count_spaces suf) as [|k] eqn:Hk.
  - cbn [Nat.leb andb skipn firstn rev app].
    destruct suf as [|d suf]; [reflexivity|].
    cbn [ahead_upper cset_mem fst snd]. fold (is_upper d).
    destruct (is_upper d); reflexivity.
  - cbn [Nat.leb andb].
    destruct suf as [|d suf]; [discriminate|].
    simpl in Hk. destruct (is_space d) eqn:Hd; [|discriminate].
    assert (Hup : is_upper d = false).
    { apply N.eqb_eq in Hd. subst d. reflexivity. }
    cbn [cset_mem fst snd]. fold (is_upper d). rewrite Hup.
    rewrite app_nil_r.
    destruct (ahead_upper _); [|reflexivity].
    now rewrite <- app_assoc.
Qed.

(** The lookbehind looks at the three characters before the position. *)
Lemma matches_lookbehind pre suf :
  matches (LookBehind (Cat (Set1 (NotRange (ord "A") (ord "Z")))
                      (Cat (Set1 Dot) (Set1 (OneOf [ord "."; ord "?"])))))
          pre suf
  = if before_ok pre then [(pre, suf)] else [].
Proof.
  cbn [matches width Nat.add].
  destruct pre as [|c3 [|c2 [|c1 pre]]]; try reflexivity.
  unfold before_ok, is_upper, is_newline, is_stop.
  cbn [length Nat.leb skipn firstn rev app matches cset_mem].
  destruct (in_range (ord "A") (ord "Z") c1); [reflexivity|].
  cbn [negb flat_map fst snd app andb].
  destruct (N.eqb c2 10); [reflexivity|].
  cbn [negb flat_map fst snd app andb existsb].
  rewrite orb_false_r.
  destruct (_ || _); reflexivity.
Qed.

Lemma matches_cat r1 r2 pre suf :
  matches (Cat r1 r2) pre suf
  = flat_map (fun ps => matches r2 (fst ps) (snd ps)) (matches r1 pre suf).
Proof. reflexivity. Qed.

Lemma matches_plus r pre suf :
  matches (Plus r) pre suf = rep (matches r) (S (length suf)) pre suf.
Proof. reflexivity. Qed.

(** At a position the pattern matches in one way at most: the whole run of
    spaces, when the rule holds there. *)
Lemma match_here_boundary pre suf :
  match_here sentence_boundary pre suf = boundary_here pre suf.
Proof.
  unfold match_here, sentence_boundary.
  rewrite matches_cat, matches_lookbehind. unfold boundary_here.
  destruct (before_ok pre); [|reflexivity].
  cbn [flat_map fst snd andb]. rewrite app_nil_r.
  rewrite matches_cat, matches_plus.
  pose proof (count_spaces_le suf).
  rewrite rep_spaces_then_upper by lia. cbn zeta.
  destruct (_ && _); reflexivity.
Qed.

(** ** From the matcher's positions to positions of the text *)

Lemma skipn_rev_app (pre suf : str) : skipn (length pre) (rev pre ++ suf) = suf.
Proof.
  rewrite skipn_app, length_rev, Nat.sub_diag.
  rewrite skipn_all2 by (rewrite length_rev; lia). reflexivity.
Qed.

Lemma nth_error_rev_app (pre suf : str) k :
  nth_error (rev pre ++ suf) (length pre + k) = nth_error suf k.
Proof.
  rewrite nth_error_app2 by (rewrite length_rev; lia).
  rewrite length_rev. f_equal. lia.
Qed.

Lemma char_at_rev_app (p : char -> bool) (pre suf : str) k :
  char_at p (rev pre ++ suf) (length pre + k) = char_at p suf k.
Proof. unfold char_at. now rewrite nth_error_rev_app. Qed.

Lemma behind_pattern_before_ok pre suf :
  behind_pattern (rev pre ++ suf) (length pre) = before_ok pre.
Proof.
  destruct pre as [|c3 [|c2 [|c1 pre]]]; try reflexivity.
  unfold behind_pattern, before_ok.
  replace (rev (c3 :: c2 :: c1 :: pre) ++ suf)
    with (rev pre ++ c1 :: c2 :: c3 :: suf)
    by (simpl; now rewrite <- !app_assoc).
  replace (length (c3 :: c2 :: c1 :: pre) - 3) with (length pre + 0)
    by (simpl; lia).
  replace (length (c3 :: c2 :: c1 :: pre) - 2) with (length pre + 1)
    by (simpl; lia).
  replace (length (c3 :: c2 :: c1 :: pre) - 1) with (length pre + 2)
    by (simpl; lia).
  rewrite !char_at_rev_app. reflexivity.
Qed.

Lemma ahead_upper_char_at suf n :
  char_at is_upper suf n = ahead_upper (skipn n suf).
Proof.
  unfold char_at. rewrite <- hd_error_skipn.
  destruct (skipn n suf); reflexivity.
Qed.

(** The boundary the matcher finds at a position is the boundary the rule
    gives at that position of the text. *)
Lemma boundary_at_position pre suf :
  match boundary_here pre suf with
  | Some (pre', suf') =>
      boundary behind_pattern (rev pre ++ suf) (length pre) = Some (length pre')
      /\ rev pre' ++ suf' = rev pre ++ suf
      /\ length pre' = length pre + count_spaces suf
      /\ 1 <= count_spaces suf
      /\ length suf' < length suf
  | None => boundary behind_pattern (rev pre ++ suf) (length pre) = None
  end.
Proof.
  unfold boundary_here, boundary.
  rewrite behind_pattern_before_ok, skipn_rev_app. cbn zeta.
  rewrite char_at_rev_app, ahead_upper_char_at.
  pose proof (count_spaces_le suf) as Hle.
  set (n := count_spaces suf) in *.
  destruct (before_ok pre && (1 <=? n) && ahead_upper (skipn n suf)) eqn:Hb;
    [|reflexivity].
  apply andb_true_iff in Hb as [Hb _]. apply andb_true_iff in Hb as [_ Hn].
  apply Nat.leb_le in Hn.
  assert (Hlen : length (rev (firstn n suf) ++ pre) = length pre + n).
  { rewrite length_app, length_rev, length_firstn. lia. }
  repeat split.
  - now rewrite Hlen.
  - rewrite rev_app_distr, rev_involutive, <- app_assoc.
    now rewrite firstn_skipn.
  - exact Hlen.
  - exact Hn.
  - rewrite length_skipn. lia.
Qed.

(** No boundary begins inside or at the end of a run of spaces. *)
Lemma no_boundary_after_space text p :
  1 <= p -> char_at is_space text (p - 1) = true ->
  boundary behind_pattern text p = None.
Proof.
  intros Hp Hsp. unfold boundary, behind_pattern.
  replace (char_at is_stop text (p - 1)) with false.
  - now rewrite !andb_false_r.
  - unfold char_at in *. destruct (nth_error text (p - 1)) as [c|]; [|reflexivity].
    apply N.eqb_eq in Hsp. subst c. reflexivity.
Qed.

Lemma spaces_at text i k :
  k < count_spaces (skipn i text) -> char_at is_space text (i + k) = true.
Proof.
  intros Hk. apply count_spaces_nth in Hk as (c & Hc & Hsp).
  rewrite nth_error_skipn in Hc. unfold char_at. now rewrite Hc.
Qed.

Lemma boundaries_from_end behind text from :
  length text <= from -> boundaries_from behind text from = [].
Proof.
  intros H. unfold boundaries_from.
  replace (length text - from) with 0 by lia. reflexivity.
Qed.

Lemma boundaries_from_step behind text from :
  from < length text ->
  boundaries_from behind text from
  = boundary_span behind text from ++ boundaries_from behind text (S from).
Proof.
  intros H. unfold boundaries_from.
  replace (length text - from) with (S (length text - S from)) by lia.
  reflexivity.
Qed.

Lemma boundaries_from_skip behind text n : forall from,
  from + n <= length text ->
  (forall p, from <= p < from + n -> boundary behind text p = None) ->
  boundaries_from behind text from = boundaries_from behind text (from + n).
Proof.
  induction n as [|n IH]; intros from Hlen Hnone.
  - now rewrite Nat.add_0_r.
  - rewrite boundaries_from_step by lia.
    unfold boundary_span. rewrite Hnone by lia. simpl.
    rewrite IH by (try lia; intros; apply Hnone; lia).
    f_equal. lia.
Qed.

(** ** [re.split] with the pattern cuts at the boundaries *)

(** [search] stops at the leftmost boundary; no boundary begins between the
    start and it, nor inside its run of spaces. *)
Lemma search_boundary suf : forall pre,
  let text := rev pre ++ suf in
  match search sentence_boundary pre suf with
  | None => boundaries_from behind_pattern text (length pre) = []
  | Some (skipped, (pre', suf')) =>
      rev pre' ++ suf' = text
      /\ skipped = firstn (length skipped) suf
      /\ boundaries_from behind_pattern text (length pre)
         = (length pre + length skipped, length pre')
             :: boundaries_from behind_pattern text (length pre')
      /\ length suf' < length suf
  end.
Proof.
  induction suf as [|c suf IH]; intros pre text; subst text;
    cbn [search]; rewrite match_here_boundary;
    pose proof (boundary_at_position pre) as Hb.
  - specialize (Hb []). destruct (boundary_here pre []) as [[pre' suf']|].
    + simpl in Hb. lia.
    + apply boundaries_from_end. rewrite length_app, length_rev. simpl. lia.
  - specialize (Hb (c :: suf)).
    assert (Hin : length pre < length (rev pre ++ c :: suf))
      by (rewrite length_app, length_rev; simpl; lia).
    destruct (boundary_here pre (c :: suf)) as [[pre' suf']|].
    + destruct Hb as (Hb & Htext & Hlen & Hone & Hshort).
      repeat split; [exact Htext | | exact Hshort].
      rewrite boundaries_from_step by exact Hin.
      unfold boundary_span. rewrite Hb. cbn [length app]. rewrite Nat.add_0_r.
      f_equal.
      replace (length pre') with (S (length pre) + (count_spaces (c :: suf) - 1))
        by lia.
      apply boundaries_from_skip.
      * pose proof (count_spaces_le (c :: suf)).
        rewrite length_app, length_rev. lia.
      * intros p Hp. apply no_boundary_after_space; [lia|].
        replace (p - 1) with (length pre + (p - 1 - length pre)) by lia.
        apply spaces_at. rewrite skipn_rev_app. lia.
    + specialize (IH (c :: pre)).
      replace (rev (c :: pre) ++ suf) with (rev pre ++ c :: suf) in IH
        by (simpl; now rewrite <- app_assoc).
      cbn zeta in IH.
      rewrite boundaries_from_step by exact Hin.
      unfold boundary_span. rewrite Hb. cbn [app].
      destruct (search sentence_boundary (c :: pre) suf)
        as [[skipped [pre' suf']]|].
      * destruct IH as (Htext & Hsk & Hbs & Hshort). cbn [length] in Hbs.
        repeat split; [exact Htext | | | simpl; lia].
        -- simpl. now rewrite <- Hsk.
        -- rewrite Hbs. simpl. do 2 f_equal. lia.
      * exact IH.
Qed.

Lemma split_from_boundaries fuel : forall pre suf,
  length suf < fuel ->
  split_from fuel sentence_boundary pre suf
  = cut (rev pre ++ suf) (length pre)
        (boundaries_from behind_pattern (rev pre ++ suf) (length pre)).
Proof.
  induction fuel as [|fuel IH]; intros pre suf Hfuel; [lia|].
  cbn [split_from]. pose proof (search_boundary suf pre) as Hs. cbn zeta in Hs.
  destruct (search sentence_boundary pre suf) as [[skipped [pre' suf']]|].
  - destruct Hs as (Htext & Hsk & Hbs & Hshort).
    rewrite Hbs. cbn [cut]. rewrite skipn_rev_app.
    replace (length pre + length skipped - length pre) with (length skipped)
      by lia.
    rewrite <- Hsk. f_equal.
    rewrite IH by lia. now rewrite Htext.
  - rewrite Hs. cbn [cut]. now rewrite skipn_rev_app.
Qed.

(** ** Properties of [split_text] *)

Local Open Scope string_scope.
Local Open Scope list_scope.

(** C5, as amended. The sentences [split_text] works on are the pieces of the
    text between its boundaries, where a boundary is: a non-uppercase
    character, any character but a newline, a period or question mark, then
    one or more spaces, then an uppercase letter; the spaces are what is cut
    out. *)
Theorem sentences_cut_at_pattern_boundaries (text : str) :
  Re.split sentence_boundary text = split_at_boundaries behind_pattern text.
Proof.
  unfold Re.split, split_at_boundaries.
  now rewrite (split_from_boundaries (S (length text)) [] text) by lia.
Qed.

(** C5, as stated, fails: with the lookbehind the description gives (a
    non-uppercase character, then the period), ["Hi. There"] has a boundary
    after the period; the pattern looks one character further back, finds
    the uppercase [H] and does not split. *)
Lemma described_boundary_not_detected :
  Re.split sentence_boundary (py "Hi. There") = [py "Hi. There"]
  /\ split_at_boundaries behind_described (py "Hi. There")
     = [py "Hi."; py "There"]
  /\ Re.split sentence_boundary (py "Hi. There")
     <> split_at_boundaries behind_described (py "Hi. There").
Proof.
  split; [reflexivity | split; [reflexivity | discriminate]].
Qed.

(** What the extra character is good for: a two-letter abbreviation that
    begins with a capital does not end a sentence. *)
Example abbreviation_not_split :
  Re.split sentence_boundary (py "Mr. Smith is in. He left.")
  = [py "Mr. Smith is in."; py "He left."].
Proof. reflexivity. Qed.

(** The other way round, the pattern splits where the described lookbehind
    would not. *)
Example undescribed_boundary_detected :
  Re.split sentence_boundary (py "aB. C") = [py "aB."; py "C"]
  /\ split_at_boundaries behind_described (py "aB. C") = [py "aB. C"].
Proof. split; reflexivity. Qed.

(** C3. The sentences of the batches, batch after batch, are the sentences
    the split produced: none dropped, none repeated, none moved. *)
Theorem split_text_covers_sentences (text : str) :
  concat (split_text text) = Re.split sentence_boundary text.
Proof.
  unfold split_text. cbn zeta. apply batch_loop_covers.
Qed.

(** C10. Every batch holds one or two sentences, never three, and there is
    always at least one batch. *)
Theorem split_text_batches_of_one_or_two (text : str) :
  split_text text <> []
  /\ Forall (fun batch => 1 <= length batch <= 2) (split_text text).
Proof.
  split.
  - intros H.
    pose proof (batch_loop_covers (Re.split sentence_boundary text)) as Hc.
    fold (split_text text) in Hc. rewrite H in Hc.
    symmetry in Hc. now apply split_nonempty in Hc.
  - apply (batch_loop_sizes _ _ [] []); [simpl; lia | constructor].
Qed.

(** When no sentence before the last has the text of the last, every batch
    but the final one holds two sentences. *)
Lemma batch_loop_twos (sentences : list str) :
  forall todo temp_batch sentence_batches,
  todo <> [] ->
  last todo [] = last sentences [] ->
  (forall s, In s (removelast todo) -> s <> last sentences []) ->
  length temp_batch <= 1 ->
  Forall (fun batch => length batch = 2) sentence_batches ->
  exists front final,
    batch_loop sentences todo temp_batch sentence_batches = front ++ [final]
    /\ Forall (fun batch => length batch = 2) front.
Proof.
  induction todo as [|sentence todo' IH]; intros tb sb Hne Hlast Hfresh Hlen Hsb;
    [congruence|].
  cbn [batch_loop].
  destruct todo' as [|s' todo''].
  - simpl in Hlast. rewrite <- Hlast, str_eqb_refl, orb_true_r.
    exists sb, (tb ++ [sentence]). split; [reflexivity | exact Hsb].
  - assert (Hneq : str_eqb sentence (last sentences []) = false).
    { apply str_eqb_neq, Hfresh. left. reflexivity. }
    rewrite Hneq, orb_false_r.
    assert (Hfresh' : forall s, In s (removelast (s' :: todo'')) ->
                                s <> last sentences []).
    { intros s Hs. apply Hfresh. right. exact Hs. }
    destruct tb as [|x [|y tb]]; simpl in Hlen; [| |lia];
      cbn [app length Nat.leb andb].
    + apply IH; [discriminate | exact Hlast | exact Hfresh' | simpl; lia | exact Hsb].
    + apply IH; [discriminate | exact Hlast | exact Hfresh' | simpl; lia |].
      apply Forall_app. split; [exact Hsb | repeat constructor].
Qed.

Lemma batches_of_two_up_to_last (text : str) :
  (forall s, In s (removelast (Re.split sentence_boundary text)) ->
             s <> last (Re.split sentence_boundary text) []) ->
  exists front final,
    split_text text = front ++ [final]
    /\ Forall (fun batch => length batch = 2) front.
Proof.
  intros Hfresh. unfold split_text. cbn zeta.
  apply batch_loop_twos;
    [apply split_nonempty | reflexivity | exact Hfresh | simpl; lia | constructor].
Qed.

(** C4 fails on the code. A sentence whose text equals that of the last
    sentence closes the batch it is in, wherever it stands: here the first
    batch holds one sentence and is not the last. *)
Theorem early_single_sentence_batch :
  Re.split sentence_boundary (py "Go on. Be it. Go on.")
  = [py "Go on."; py "Be it."; py "Go on."]
  /\ split_text (py "Go on. Be it. Go on.")
     = [[py "Go on."]; [py "Be it."; py "Go on."]].
Proof. split; reflexivity. Qed.

(** C7 fails on the code. Two sentences with the same text end up in two
    batches of one: the first already compares equal to the last. *)
Theorem equal_sentences_split_apart :
  Re.split sentence_boundary (py "Go on. Go on.") = [py "Go on."; py "Go on."]
  /\ split_text (py "Go on. Go on.") = [[py "Go on."]; [py "Go on."]].
Proof. split; reflexivity. Qed.

(** C8, as stated, fails: five sentences give batches of two, two and one. *)
Lemma five_sentences_not_two_three :
  length (Re.split sentence_boundary (py "Aa a. Bb b. Cc c. Dd d. Ee e.")) = 5
  /\ map (@length str) (split_text (py "Aa a. Bb b. Cc c. Dd d. Ee e."))
     = [2; 2; 1]
  /\ map (@length str) (split_text (py "Aa a. Bb b. Cc c. Dd d. Ee e."))
     <> [2; 3]
  /\ map (@length str) (split_text (py "Aa a. Bb b. Cc c. Dd d. Ee e."))
     <> [3; 2].
Proof.
  split; [reflexivity | split; [reflexivity | split; discriminate]].
Qed.

(** C8, as amended. Five sentences, the last of which differs in text from
    the four before it, are batched as two, two and one, each sentence once
    and in order. *)
Theorem five_sentences_two_two_one (text s1 s2 s3 s4 s5 : str) :
  Re.split sentence_boundary text = [s1; s2; s3; s4; s5] ->
  s1 <> s5 -> s2 <> s5 -> s3 <> s5 -> s4 <> s5 ->
  split_text text = [[s1; s2]; [s3; s4]; [s5]].
Proof.
  intros Hs H1 H2 H3 H4. unfold split_text. rewrite Hs. cbn zeta.
  apply str_eqb_neq in H1, H3.
  cbn [batch_loop app length Nat.leb andb orb last].
  rewrite H1. cbn [batch_loop app length Nat.leb andb orb last].
  rewrite H3. cbn [batch_loop app length Nat.leb andb orb last].
  now rewrite str_eqb_refl.
Qed.

Lemma five_sentences_two_two_one_witness :
  Re.split sentence_boundary (py "Aa a. Bb b. Cc c. Dd d. Ee e.")
  = [py "Aa a."; py "Bb b."; py "Cc c."; py "Dd d."; py "Ee e."]
  /\ split_text (py "Aa a. Bb b. Cc c. Dd d. Ee e.")
     = [[py "Aa a."; py "Bb b."]; [py "Cc c."; py "Dd d."]; [py "Ee e."]].
Proof.
  split; [reflexivity|].
  apply five_sentences_two_two_one;
    [reflexivity | discriminate | discriminate | discriminate | discriminate].
Defined.

(** ** Comparing scores *)

Local Open Scope float_scope.

Lemma SFcompare_swap (x y : spec_float) :
  SFcompare y x = option_map CompOpp (SFcompare x y).
Proof.
  destruct x as [sx|sx| |sx mx ex], y as [sy|sy| |sy my ey]; simpl;
    try reflexivity;
    try (destruct sx; reflexivity); try (destruct sy; reflexivity);
    try (destruct sx, sy; reflexivity).
  destruct sx, sy; try reflexivity; simpl; f_equal;
    rewrite (Z.compare_antisym ex ey); destruct (Z.compare ex ey); simpl;
      try reflexivity.
  - f_equal. exact (eq_sym (Pos.compare_cont_antisym mx my Eq)).
  - exact (eq_sym (Pos.compare_cont_antisym mx my Eq)).
Qed.

Lemma is_nan_compare (x : float) :
  is_nan x = false -> forall y, is_nan y = false ->
  SFcompare (Prim2SF x) (Prim2SF y) <> None.
Proof.
  unfold is_nan. intros Hx y Hy.
  rewrite eqb_spec in Hx, Hy. unfold SFeqb in Hx, Hy.
  destruct (Prim2SF x) as [sx|sx| |sx mx ex], (Prim2SF y) as [sy|sy| |sy my ey];
    simpl in *; try discriminate.
Qed.

(** For two numbers, [x < y] is the negation of [y <= x]. *)
Lemma ltb_negb_leb (x y : float) :
  is_nan x = false -> is_nan y = false -> (x <? y) = negb (y <=? x).
Proof.
  intros Hx Hy. pose proof (is_nan_compare x Hx y Hy) as Hc.
  rewrite ltb_spec, leb_spec. unfold SFltb, SFleb.
  rewrite (SFcompare_swap (Prim2SF x) (Prim2SF y)).
  destruct (SFcompare (Prim2SF x) (Prim2SF y)) as [[| |]|];
    [reflexivity | reflexivity | reflexivity | congruence].
Qed.

(** When [y <= x] holds, [x < y] does not, whatever [x] and [y] are. *)
Lemma leb_not_ltb (x y : float) : (y <=? x) = true -> (x <? y) = false.
Proof.
  rewrite ltb_spec, leb_spec. unfold SFltb, SFleb.
  rewrite (SFcompare_swap (Prim2SF x) (Prim2SF y)).
  destruct (SFcompare (Prim2SF x) (Prim2SF y)) as [[| |]|]; simpl;
    congruence.
Qed.

Lemma threshold_is_a_number : is_nan threshold = false.
Proof. reflexivity. Qed.

Local Close Scope float_scope.

(** ** Properties of [correct_text] *)

Lemma skipn_length_app {A} (l l' : list A) : skipn (length l) (l ++ l') = l'.
Proof.
  rewrite skipn_app, Nat.sub_diag, skipn_all. reflexivity.
Qed.

(** The guard of the corrector against the description of the rule. *)
Lemma confident_no_correction r : confident r -> needs_correction r = false.
Proof.
  intros [Hl Hs]. unfold needs_correction.
  rewrite Hl, str_eqb_refl, (leb_not_ltb _ _ Hs). reflexivity.
Qed.

Lemma no_correction_confident r :
  (label r = LABEL_1 -> is_nan (score r) = false) ->
  needs_correction r = false -> confident r.
Proof.
  unfold needs_correction, confident. intros Hnum.
  destruct (str_eqb (label r) LABEL_1) eqn:Hl; [|discriminate].
  apply str_eqb_eq in Hl. simpl.
  rewrite (ltb_negb_leb _ _ (Hnum Hl) threshold_is_a_number).
  destruct (threshold <=? score r)%float; [auto | discriminate].
Qed.

Lemma other_label_correction r : label r <> LABEL_1 -> needs_correction r = true.
Proof.
  intros Hl. apply str_eqb_neq in Hl. unfold needs_correction.
  now rewrite Hl.
Qed.

Section PipelineFacts.

Variables W E : Type.
Variable checker : str -> W -> (E + list ClassificationResult) * W.
Variable corrector : str -> W -> (E + list str) * W.

Local Abbreviation correct_batch' := (correct_batch checker corrector).
Local Abbreviation each_batch' := (each_batch checker corrector).
Local Abbreviation correct_loop' := (correct_loop checker corrector).
Local Abbreviation correct_text' := (correct_text checker corrector).

Implicit Types (st : run W) (batch : list str) (r : ClassificationResult).

Lemma bind_inr {A B} (m : M W E A) (k : A -> M W E B) st a st' :
  m st = (inr a, st') -> bind m k st = k a st'.
Proof. intros H. unfold bind. now rewrite H. Qed.

Lemma bind_inl {A B} (m : M W E A) (k : A -> M W E B) st e st' :
  m st = (inl e, st') -> bind m k st = (inl e, st').
Proof. intros H. unfold bind. now rewrite H. Qed.

Lemma correct_batch_checker_raises batch st e w' :
  checker (join (py " ") batch) (world st) = (inl e, w') ->
  correct_batch' batch st
  = (inl (Raised e),
     {| world := w';
        calls := calls st ++ [CallChecker (join (py " ") batch)] |}).
Proof.
  intros Hc. unfold correct_batch, bind, call_checker.
  now rewrite Hc.
Qed.

Lemma correct_batch_passes batch st r more w' :
  checker (join (py " ") batch) (world st) = (inr (r :: more), w') ->
  needs_correction r = false ->
  correct_batch' batch st
  = (inr (join (py " ") batch),
     {| world := w';
        calls := calls st ++ [CallChecker (join (py " ") batch)] |}).
Proof.
  intros Hc Hn. unfold correct_batch, bind, call_checker.
  rewrite Hc. cbn [item0 ret]. now rewrite Hn.
Qed.

Lemma correct_batch_corrects batch st r more w' :
  checker (join (py " ") batch) (world st) = (inr (r :: more), w') ->
  needs_correction r = true ->
  correct_batch' batch st
  = let st' := {| world := snd (corrector (join (py " ") batch) w');
                  calls := calls st ++ [CallChecker (join (py " ") batch);
                                        CallCorrector (join (py " ") batch)] |} in
    match fst (corrector (join (py " ") batch) w') with
    | inr (out :: _) => (inr out, st')
    | inr [] => (inl IndexError, st')
    | inl e => (inl (Raised e), st')
    end.
Proof.
  intros Hc Hn.
  unfold correct_batch, bind, call_checker, call_corrector.
  rewrite Hc. cbn [item0 ret]. rewrite Hn. cbn [world calls].
  rewrite <- app_assoc. cbn [app].
  destruct (corrector (join (py " ") batch) w') as [[e|[|out more']] w''];
    reflexivity.
Qed.

(** What one batch adds to the record of calls. *)
Lemma correct_batch_calls batch st r more w' :
  checker (join (py " ") batch) (world st) = (inr (r :: more), w') ->
  calls_made st (snd (correct_batch' batch st))
  = CallChecker (join (py " ") batch)
      :: (if needs_correction r
          then [CallCorrector (join (py " ") batch)]
          else []).
Proof.
  intros Hc. unfold calls_made. destruct (needs_correction r) eqn:Hn.
  - rewrite (correct_batch_corrects _ _ _ _ _ Hc Hn). cbn zeta.
    destruct (fst _) as [e|[|out more']]; cbn [snd calls];
      apply skipn_length_app.
  - rewrite (correct_batch_passes _ _ _ _ _ Hc Hn). cbn [snd calls].
    apply skipn_length_app.
Qed.

Lemma correct_batch_pipeline_raises batch st e st' :
  pipeline_raises checker corrector batch st e st' ->
  correct_batch' batch st = (inl (Raised e), st').
Proof.
  intros [w' Hc | r more w1 w2 Hc Hn Hr].
  - now apply correct_batch_checker_raises.
  - rewrite (correct_batch_corrects _ _ _ _ _ Hc Hn). now rewrite Hr.
Qed.

(** The loop with its accumulator against the batches taken one by one. *)
Lemma correct_loop_each batches : forall corrected_text st,
  correct_loop' batches corrected_text st
  = match each_batch' batches st with
    | (inr outs, st') => (inr (corrected_text ++ outs), st')
    | (inl e, st') => (inl e, st')
    end.
Proof.
  induction batches as [|batch rest IH]; intros acc st.
  - cbn. now rewrite app_nil_r.
  - cbn [correct_loop each_batch].
    destruct (correct_batch' batch st) as [[e|out] st1] eqn:Hb.
    + now rewrite !(bind_inl _ _ _ _ _ Hb).
    + rewrite !(bind_inr _ _ _ _ _ Hb), IH.
      destruct (each_batch' rest st1) as [[e|outs] st2] eqn:Hr.
      * now rewrite (bind_inl _ _ _ _ _ Hr).
      * rewrite (bind_inr _ _ _ _ _ Hr). cbn [ret]. now rewrite <- app_assoc.
Qed.

Lemma each_batch_raises done batch rest : forall st outs st1 e st2,
  each_batch' done st = (inr outs, st1) ->
  correct_batch' batch st1 = (inl e, st2) ->
  each_batch' (done ++ batch :: rest) st = (inl e, st2).
Proof.
  induction done as [|b done IH]; intros st outs st1 e st2 Hdone Hraise.
  - cbn in Hdone. inversion Hdone; subst.
    cbn [app each_batch]. now rewrite (bind_inl _ _ _ _ _ Hraise).
  - cbn [app each_batch] in *.
    destruct (correct_batch' b st) as [[e0|out] st0] eqn:Hb.
    + rewrite (bind_inl _ _ _ _ _ Hb) in Hdone. discriminate.
    + rewrite (bind_inr _ _ _ _ _ Hb).
      rewrite (bind_inr _ _ _ _ _ Hb) in Hdone.
      destruct (each_batch' done st0) as [[e1|outs1] st1'] eqn:Hd.
      * rewrite (bind_inl _ _ _ _ _ Hd) in Hdone. discriminate.
      * rewrite (bind_inr _ _ _ _ _ Hd) in Hdone. cbn [ret] in Hdone.
        inversion Hdone; subst.
        now rewrite (bind_inl _ _ _ _ _ (IH _ _ _ _ _ Hd Hraise)).
Qed.

Lemma correct_text_each text separator st :
  correct_text' text separator st
  = bind (each_batch' (split_text text))
         (fun outs => ret (join separator outs)) st.
Proof.
  unfold correct_text, bind. rewrite correct_loop_each.
  destruct (each_batch' (split_text text) st) as [[e|outs] st']; reflexivity.
Qed.

(** C1. While a batch is processed, the corrector is called exactly when
    the classification is not [LABEL_1] with a score of at least [0.9]
    (scores being numbers, as the classification result has them). So a
    [LABEL_1] batch with score [0.9] is not rewritten, one with score
    [0.8999] is, and a batch with any other label is, whatever its score. *)
Theorem corrector_called_iff_not_confident batch st r more w' :
  checker (join (py " ") batch) (world st) = (inr (r :: more), w') ->
  (label r = LABEL_1 -> is_nan (score r) = false) ->
  let called :=
    In (CallCorrector (join (py " ") batch))
       (calls_made st (snd (correct_batch' batch st))) in
  (called <-> ~ confident r)
  /\ (label r = LABEL_1 -> score r = threshold -> ~ called)
  /\ (label r = LABEL_1 -> score r = just_below -> called)
  /\ (label r <> LABEL_1 -> called).
Proof.
  intros Hc Hnum called. subst called.
  rewrite (correct_batch_calls _ _ _ _ _ Hc).
  assert (Hno : needs_correction r = false ->
                ~ In (CallCorrector (join (py " ") batch))
                     [CallChecker (join (py " ") batch)]).
  { intros _ [H|[]]. discriminate. }
  assert (Hyes : In (CallCorrector (join (py " ") batch))
                    [CallChecker (join (py " ") batch);
                     CallCorrector (join (py " ") batch)])
    by (right; left; reflexivity).
  repeat split.
  - intros Hin Hconf. apply confident_no_correction in Hconf.
    rewrite Hconf in Hin. now apply Hno.
  - intros Hnot. destruct (needs_correction r) eqn:Hn; [exact Hyes|].
    exfalso. apply Hnot. now apply no_correction_confident.
  - intros Hl Hs.
    assert (Hconf : confident r) by (split; [exact Hl | now rewrite Hs]).
    apply confident_no_correction in Hconf. rewrite Hconf. now apply Hno.
  - intros Hl Hs.
    assert (Hn : needs_correction r = true).
    { unfold needs_correction. now rewrite Hl, Hs. }
    rewrite Hn. exact Hyes.
  - intros Hl. rewrite (other_label_correction _ Hl). exact Hyes.
Qed.

(** C6. A batch classified [LABEL_1] with a score of at least [0.9] comes
    out as its sentences joined with one space, after the one call of the
    checker and none of the corrector; and the result of [correct_text]
    is the outputs of the batches, in order, joined with the separator. *)
Theorem confident_batch_unchanged_and_outputs_joined :
  (forall batch st r more w',
      checker (join (py " ") batch) (world st) = (inr (r :: more), w') ->
      confident r ->
      correct_batch' batch st
      = (inr (join (py " ") batch),
         {| world := w';
            calls := calls st ++ [CallChecker (join (py " ") batch)] |}))
  /\ (forall text separator st,
         correct_text' text separator st
         = bind (each_batch' (split_text text))
                (fun outs => ret (join separator outs)) st).
Proof.
  split.
  - intros batch st r more w' Hc Hconf.
    apply (correct_batch_passes _ _ _ _ _ Hc).
    now apply confident_no_correction.
  - apply correct_text_each.
Qed.

(** C9. When, the batches before it done, a pipeline raises on a batch,
    [correct_text] raises the same: no output, no call after the one that
    failed. *)
Theorem pipeline_error_aborts text separator st done batch rest outs st1 e st2 :
  split_text text = done ++ batch :: rest ->
  each_batch' done st = (inr outs, st1) ->
  pipeline_raises checker corrector batch st1 e st2 ->
  correct_text' text separator st = (inl (Raised e), st2).
Proof.
  intros Hsplit Hdone Hraise.
  rewrite correct_text_each, Hsplit.
  apply bind_inl.
  apply (each_batch_raises _ _ _ _ _ _ _ _ Hdone).
  now apply correct_batch_pipeline_raises.
Qed.

(** C2, as amended. The empty text is one batch of one empty sentence.
    [correct_text] calls the checker once, on the empty string; then it
    either returns the empty string, or calls the corrector once on the
    empty string and returns what that generates. *)
Theorem empty_text_checked_once separator st r more w' :
  checker [] (world st) = (inr (r :: more), w') ->
  split_text [] = [[[]]]
  /\ (needs_correction r = false ->
      correct_text' [] separator st
      = (inr [], {| world := w'; calls := calls st ++ [CallChecker []] |}))
  /\ (forall out more' w'',
         needs_correction r = true ->
         corrector [] w' = (inr (out :: more'), w'') ->
         correct_text' [] separator st
         = (inr out, {| world := w'';
                        calls := calls st ++ [CallChecker [];
                                              CallCorrector []] |})).
Proof.
  intros Hc. split; [reflexivity|].
  assert (Hone : forall res,
             correct_batch' [[]] st = res ->
             correct_text' [] separator st
             = match res with
               | (inr out, st') => (inr out, st')
               | (inl e, st') => (inl e, st')
               end).
  { intros res <-. rewrite correct_text_each.
    change (split_text []) with [[@nil char]]. cbn [each_batch].
    unfold bind. destruct (correct_batch' [[]] st) as [[e|out] st'];
      reflexivity. }
  split.
  - intros Hn. now rewrite (Hone _ (correct_batch_passes [[]] _ _ _ _ Hc Hn)).
  - intros out more' w'' Hn Hr.
    rewrite (Hone _ (correct_batch_corrects [[]] _ _ _ _ Hc Hn)).
    cbn [join]. now rewrite Hr.
Qed.

End PipelineFacts.

(** ** The theorems at work on concrete pipelines *)

Lemma corrector_called_iff_not_confident_witness :
  checker_says LABEL_1 just_below
               (join (py " ") [py "Go on."; py "Be it."]) (world fresh)
  = (inr [{| label := LABEL_1; score := just_below |}], 1)
  /\ (In (CallCorrector (join (py " ") [py "Go on."; py "Be it."]))
         (calls_made fresh
            (snd (correct_batch (checker_says LABEL_1 just_below) corrector_marks
                                [py "Go on."; py "Be it."] fresh)))
      <-> ~ confident {| label := LABEL_1; score := just_below |}).
Proof.
  split; [reflexivity|].
  apply (corrector_called_iff_not_confident nat str
           (checker_says LABEL_1 just_below) corrector_marks
           [py "Go on."; py "Be it."] fresh
           {| label := LABEL_1; score := just_below |} [] 1);
    reflexivity.
Defined.

Lemma confident_batch_unchanged_and_outputs_joined_witness :
  confident {| label := LABEL_1; score := threshold |}
  /\ correct_batch (checker_says LABEL_1 threshold) corrector_marks
                   [py "Go on."; py "Be it."] fresh
     = (inr (py "Go on. Be it."),
        {| world := 1; calls := [CallChecker (py "Go on. Be it.")] |}).
Proof.
  split; [split; reflexivity|].
  apply (proj1 (confident_batch_unchanged_and_outputs_joined nat str
                  (checker_says LABEL_1 threshold) corrector_marks)
               [py "Go on."; py "Be it."] fresh
               {| label := LABEL_1; score := threshold |} [] 1);
    [reflexivity | split; reflexivity].
Defined.

Lemma pipeline_error_aborts_witness :
  split_text (py "Aa a. Bb b. Cc c. Dd d. Ee e.")
  = [[py "Aa a."; py "Bb b."]; [py "Cc c."; py "Dd d."]] ++ [py "Ee e."] :: []
  /\ each_batch checker_tires corrector_marks
                [[py "Aa a."; py "Bb b."]; [py "Cc c."; py "Dd d."]] fresh
     = (inr [py "Aa a. Bb b."; py "Cc c. Dd d."],
        {| world := 2;
           calls := [CallChecker (py "Aa a. Bb b.");
                     CallChecker (py "Cc c. Dd d.")] |})
  /\ correct_text checker_tires corrector_marks
                  (py "Aa a. Bb b. Cc c. Dd d. Ee e.") (py " ") fresh
     = (inl (Raised (py "checker down")),
        {| world := 3;
           calls := [CallChecker (py "Aa a. Bb b.");
                     CallChecker (py "Cc c. Dd d.");
                     CallChecker (py "Ee e.")] |}).
Proof.
  split; [reflexivity | split; [reflexivity|]].
  apply (pipeline_error_aborts nat str
           checker_tires corrector_marks
           (py "Aa a. Bb b. Cc c. Dd d. Ee e.") (py " ") fresh
           [[py "Aa a."; py "Bb b."]; [py "Cc c."; py "Dd d."]]
           [py "Ee e."] []
           [py "Aa a. Bb b."; py "Cc c. Dd d."]
           {| world := 2;
              calls := [CallChecker (py "Aa a. Bb b.");
                        CallChecker (py "Cc c. Dd d.")] |});
    [reflexivity | reflexivity |].
  apply (checker_raises nat str checker_tires corrector_marks [py "Ee e."]
           {| world := 2;
              calls := [CallChecker (py "Aa a. Bb b.");
                        CallChecker (py "Cc c. Dd d.")] |}
           (py "checker down") 3).
  reflexivity.
Defined.

Lemma empty_text_checked_once_witness :
  checker_says LABEL_1 threshold [] (world fresh)
  = (inr [{| label := LABEL_1; score := threshold |}], 1)
  /\ split_text [] = [[[]]]
  /\ correct_text (checker_says LABEL_1 threshold) corrector_marks
                  [] (py " ") fresh
     = (inr [], {| world := 1; calls := [CallChecker []] |}).
Proof.
  split; [reflexivity|].
  pose proof (empty_text_checked_once nat str
                (checker_says LABEL_1 threshold) corrector_marks
                (py " ") fresh
                {| label := LABEL_1; score := threshold |} [] 1
                eq_refl) as [Hsplit [Hpass _]].
  split; [exact Hsplit | exact (Hpass eq_refl)].
Defined.

(** C2, as stated, fails: the empty text makes one batch, the checker is
    called on it, and when the rule asks for it so is the corrector, whose
    output is returned. *)
Lemma empty_text_is_not_skipped :
  split_text (py "") = [[py ""]]
  /\ split_text (py "") <> []
  /\ correct_text (checker_says LABEL_1 threshold) corrector_marks
                  (py "") (py " ") fresh
     = (inr (py ""), {| world := 1; calls := [CallChecker (py "")] |})
  /\ correct_text (checker_says LABEL_1 just_below) corrector_marks
                  (py "") (py " ") fresh
     = (inr (py "[]"),
        {| world := 2;
           calls := [CallChecker (py ""); CallCorrector (py "")] |}).
Proof.
  split; [reflexivity | split; [discriminate | split; reflexivity]].
Qed.

(** The corrector raising, on a batch the checker sends to it. *)
Example corrector_error_reaches_caller :
  correct_text (checker_says LABEL_1 just_below) corrector_fails
               (py "Go on.") (py " ") fresh
  = (inl (Raised (py "corrector down")),
     {| world := 2;
        calls := [CallChecker (py "Go on."); CallCorrector (py "Go on.")] |}).
Proof. reflexivity. Qed.

(** A score that is not a number: the guard of the corrector is false for
    it, and so is the test for a score of at least [0.9]. Such a batch is
    passed on unchanged. *)
Example nan_score_passes :
  needs_correction {| label := LABEL_1; score := nan |} = false
  /\ ~ confident {| label := LABEL_1; score := nan |}.
Proof. split; [reflexivity | intros [_ H]; discriminate H]. Qed.

(** ** The split, piece by piece *)

Lemma count_spaces_firstn s :
  forallb is_space (firstn (count_spaces s) s) = true.
Proof.
  induction s as [|c s IH]; simpl; [reflexivity|].
  destruct (is_space c) eqn:Hc; simpl; [now rewrite Hc | reflexivity].
Qed.

(** What a boundary needs around it. *)
Lemma boundary_here_some pre suf pre' suf' :
  boundary_here pre suf = Some (pre', suf') ->
  let gap := firstn (count_spaces suf) suf in
  suf = gap ++ suf' /\ pre' = rev gap ++ pre
  /\ gap <> [] /\ forallb is_space gap = true
  /\ before_ok pre = true /\ ahead_upper suf' = true.
Proof.
  unfold boundary_here. cbn zeta.
  destruct (before_ok pre) eqn:Hb; [|discriminate].
  destruct (1 <=? count_spaces suf)%nat eqn:Hn; [|discriminate].
  destruct (ahead_upper _) eqn:Hu; [|discriminate].
  cbn [andb]. intros H. inversion H; subst. apply Nat.leb_le in Hn.
  repeat split; auto.
  - now rewrite firstn_skipn.
  - destruct suf as [|c suf]; simpl in *; [lia|].
    destruct (is_space c); [discriminate | lia].
  - apply count_spaces_firstn.
Qed.

(** [search], read off the text: what it skips holds no boundary, what it
    stops at is a boundary. *)
Lemma search_none suf : forall pre,
  search sentence_boundary pre suf = None <->
  (forall k, k <= length suf ->
             boundary_here (rev (firstn k suf) ++ pre) (skipn k suf) = None).
Proof.
  induction suf as [|c suf IH]; intros pre; cbn [search];
    rewrite match_here_boundary.
  - split.
    + intros H k Hk. simpl in Hk. replace k with 0 by lia. simpl.
      destruct (boundary_here pre []); [discriminate | reflexivity].
    + intros H. specialize (H 0 (Nat.le_0_l _)). simpl in H. now rewrite H.
  - split.
    + intros H k Hk.
      destruct (boundary_here pre (c :: suf)) eqn:Hb; [discriminate|].
      destruct k as [|k]; [exact Hb|].
      destruct (search sentence_boundary (c :: pre) suf) as [[sk af]|] eqn:Hs;
        [discriminate|].
      apply IH with (k := k) in Hs; [|simpl in Hk; lia].
      simpl. now rewrite <- app_assoc.
    + intros H. pose proof (H 0 (Nat.le_0_l _)) as H0. simpl in H0.
      rewrite H0.
      assert (Hs : search sentence_boundary (c :: pre) suf = None).
      { apply IH. intros k Hk. specialize (H (S k)). simpl in H.
        rewrite <- app_assoc in H. apply H. lia. }
      now rewrite Hs.
Qed.

Lemma search_some suf : forall pre skipped pre' suf',
  search sentence_boundary pre suf = Some (skipped, (pre', suf')) ->
  exists gap,
    suf = skipped ++ gap ++ suf'
    /\ pre' = rev gap ++ rev skipped ++ pre
    /\ gap <> [] /\ forallb is_space gap = true
    /\ before_ok (rev skipped ++ pre) = true
    /\ ahead_upper suf' = true
    /\ (forall k, k < length skipped ->
                  boundary_here (rev (firstn k skipped) ++ pre) (skipn k suf)
                  = None).
Proof.
  induction suf as [|c suf IH]; intros pre skipped pre' suf';
    cbn [search]; rewrite match_here_boundary.
  - destruct (boundary_here pre []) as [[p s]|] eqn:Hb; [|discriminate].
    intros H. inversion H; subst.
    apply boundary_here_some in Hb. cbn zeta in Hb.
    destruct Hb as (_ & _ & Hne & _). simpl in Hne. congruence.
  - destruct (boundary_here pre (c :: suf)) as [[p s]|] eqn:Hb.
    + intros H. inversion H; subst.
      apply boundary_here_some in Hb. cbn zeta in Hb.
      destruct Hb as (Hsuf & Hpre & Hne & Hsp & Hbe & Hup).
      eexists. repeat split; try eassumption; simpl; intros; lia.
    + destruct (search sentence_boundary (c :: pre) suf) as [[sk [p s]]|] eqn:Hs;
        [|discriminate].
      intros H. inversion H; subst.
      destruct (IH _ _ _ _ Hs) as (gap & Hsuf & Hpre & Hne & Hsp & Hbe & Hup & Hno).
      exists gap. simpl. rewrite <- !app_assoc in *. simpl in *.
      repeat split; auto.
      * now rewrite Hsuf.
      * intros k Hk. destruct k as [|k]; [exact Hb|].
        simpl. rewrite <- app_assoc. apply Hno. lia.
Qed.

Lemma in_firstn_skipn (k : nat) (s : str) c :
  In c (firstn k s) \/ In c (skipn k s) -> In c s.
Proof.
  intros H. rewrite <- (firstn_skipn k s). apply in_or_app. exact H.
Qed.

Lemma boundary_here_needs pre suf :
  boundary_here pre suf <> None ->
  3 <= length pre /\ 2 <= length suf
  /\ (exists c, In c pre /\ is_stop c = true)
  /\ (exists c, In c suf /\ is_space c = true)
  /\ (exists c, In c suf /\ is_upper c = true).
Proof.
  destruct (boundary_here pre suf) as [[pre' suf']|] eqn:Hb; [|congruence].
  intros _. apply boundary_here_some in Hb. cbn zeta in Hb.
  destruct Hb as (Hsuf & _ & Hne & Hsp & Hbe & Hup).
  set (gap := firstn (count_spaces suf) suf) in *.
  destruct gap as [|g gap]; [congruence|].
  destruct suf' as [|u suf']; [discriminate|].
  destruct pre as [|c3 [|c2 [|c1 pre]]]; try discriminate.
  simpl in Hbe, Hsp, Hup.
  apply andb_true_iff in Hbe as [_ Hstop].
  apply andb_true_iff in Hsp as [Hg _].
  rewrite Hsuf. repeat split.
  - simpl. lia.
  - rewrite length_app. simpl. lia.
  - exists c3. split; [left; reflexivity | exact Hstop].
  - exists g. split; [left; reflexivity | exact Hg].
  - exists u. split; [|exact Hup].
    apply in_or_app. right. left. reflexivity.
Qed.

(** A text in which no boundary is found comes back whole. *)
Lemma split_whole text :
  (forall k, k <= length text ->
             boundary_here (rev (firstn k text)) (skipn k text) = None) ->
  Re.split sentence_boundary text = [text].
Proof.
  intros H. unfold Re.split. cbn [split_from].
  assert (Hs : search sentence_boundary [] text = None).
  { apply search_none. intros k Hk. rewrite app_nil_r. now apply H. }
  now rewrite Hs.
Qed.

Lemma split_text_whole text :
  Re.split sentence_boundary text = [text] -> split_text text = [[text]].
Proof.
  intros H. unfold split_text. rewrite H. cbn.
  now rewrite str_eqb_refl.
Qed.

(** Without a period or question mark, or a space, or an uppercase letter,
    or with fewer than five characters, a text holds no boundary. *)
Lemma no_boundary_possible (text : str) :
  (forall c, In c text -> is_stop c = false)
  \/ (forall c, In c text -> is_space c = false)
  \/ (forall c, In c text -> is_upper c = false)
  \/ length text < 5 ->
  Re.split sentence_boundary text = [text].
Proof.
  intros H. apply split_whole. intros k Hk.
  destruct (boundary_here (rev (firstn k text)) (skipn k text)) eqn:Hb;
    [exfalso | reflexivity].
  assert (Hne : boundary_here (rev (firstn k text)) (skipn k text) <> None)
    by congruence.
  apply boundary_here_needs in Hne
    as (Hpre & Hsuf & (c1 & Hin1 & Hc1) & (c2 & Hin2 & Hc2) & (c3 & Hin3 & Hc3)).
  apply in_rev in Hin1.
  assert (In c1 text) by (apply (in_firstn_skipn k); now left).
  assert (In c2 text) by (apply (in_firstn_skipn k); now right).
  assert (In c3 text) by (apply (in_firstn_skipn k); now right).
  destruct H as [H | [H | [H | H]]].
  - rewrite H in Hc1 by assumption. discriminate.
  - rewrite H in Hc2 by assumption. discriminate.
  - rewrite H in Hc3 by assumption. discriminate.
  - rewrite length_rev, length_firstn in Hpre. rewrite length_skipn in Hsuf. lia.
Qed.

(** X1. A text without a period or question mark, or without a space, or
    without an uppercase letter, or of fewer than five characters, is one
    batch of one sentence, the text itself. *)
Theorem unpunctuated_text_is_one_batch (text : str) :
  (forall c, In c text -> is_stop c = false)
  \/ (forall c, In c text -> is_space c = false)
  \/ (forall c, In c text -> is_upper c = false)
  \/ length text < 5 ->
  split_text text = [[text]].
Proof.
  intros H. now apply split_text_whole, no_boundary_possible.
Qed.

Lemma unpunctuated_text_is_one_batch_witness :
  (forall c, In c (py "They are moved by salar energy") -> is_stop c = false)
  /\ split_text (py "They are moved by salar energy")
     = [[py "They are moved by salar energy"]].
Proof.
  assert (H : forall c, In c (py "They are moved by salar energy") ->
                        is_stop c = false).
  { intros c Hc. simpl in Hc.
    repeat (destruct Hc as [<-|Hc]; [reflexivity|]). destruct Hc. }
  split; [exact H|].
  apply unpunctuated_text_is_one_batch. left. exact H.
Defined.

(** After a match the matcher stands behind a space, where no match can
    begin at once. *)
Lemma before_ok_after_gap gap pre :
  gap <> [] -> forallb is_space gap = true -> before_ok (rev gap ++ pre) = false.
Proof.
  intros Hne Hsp.
  destruct (rev gap) as [|g rg] eqn:Hr.
  - apply (f_equal (@rev char)) in Hr. rewrite rev_involutive in Hr.
    simpl in Hr. congruence.
  - assert (Hg : is_space g = true).
    { rewrite forallb_forall in Hsp. apply Hsp, in_rev. rewrite Hr. now left. }
    apply N.eqb_eq in Hg. subst g. simpl.
    destruct (rg ++ pre) as [|c2 [|c1 l]]; try reflexivity.
    simpl. now rewrite !andb_false_r.
Qed.

(** What is skipped up to a match ends with the period or question mark,
    unless the search began right behind one. *)
Lemma skipped_ends_with_stop skipped pre :
  before_ok pre = false -> before_ok (rev skipped ++ pre) = true ->
  exists body c, skipped = body ++ [c] /\ is_stop c = true.
Proof.
  intros Hpre Hb.
  destruct (rev skipped) as [|c rs] eqn:Hr.
  - simpl in Hb. congruence.
  - exists (rev rs), c. split.
    + apply (f_equal (@rev char)) in Hr. rewrite rev_involutive in Hr.
      exact Hr.
    + simpl in Hb. destruct (rs ++ pre) as [|c2 [|c1 l]]; try discriminate.
      now apply andb_true_iff in Hb as [_ Hb].
Qed.

Lemma ahead_upper_app a b :
  a <> [] -> ahead_upper (a ++ b) = ahead_upper a.
Proof. destruct a; [congruence | reflexivity]. Qed.

Lemma search_shorter suf pre skipped pre' suf' :
  search sentence_boundary pre suf = Some (skipped, (pre', suf')) ->
  length suf' < length suf.
Proof.
  intros H. apply search_some in H as (gap & -> & _ & Hne & _).
  rewrite !length_app. destruct gap; [congruence | simpl; lia].
Qed.

Lemma split_from_shape fuel : forall pre suf,
  length suf < fuel -> before_ok pre = false ->
  let ss := split_from fuel sentence_boundary pre suf in
  Forall (fun s => exists body c, s = body ++ [c] /\ is_stop c = true)
         (removelast ss)
  /\ Forall (fun s => ahead_upper s = true) (tl ss)
  /\ (ahead_upper suf = true -> Forall (fun s => ahead_upper s = true) ss)
  /\ (suf <> [] -> Forall (fun s => s <> []) ss).
Proof.
  induction fuel as [|fuel IH]; intros pre suf Hfuel Hpre; [lia|].
  cbn [split_from].
  destruct (search sentence_boundary pre suf) as [[skipped [pre' suf']]|] eqn:Hs.
  - pose proof (search_shorter _ _ _ _ _ Hs) as Hshort.
    apply search_some in Hs
      as (gap & Hsuf & Hpre' & Hne & Hsp & Hbe & Hup & _).
    assert (Hpre'' : before_ok pre' = false)
      by (rewrite Hpre'; now apply before_ok_after_gap).
    destruct (IH pre' suf' ltac:(lia) Hpre'') as (IH1 & IH2 & IH3 & IH4).
    cbn zeta.
    pose proof (split_from_nonempty fuel sentence_boundary pre' suf') as Hss.
    destruct (skipped_ends_with_stop skipped pre Hpre Hbe) as (body & c & Hsk & Hc).
    assert (Hskne : skipped <> []) by (rewrite Hsk; now destruct body).
    assert (Hsuf' : suf' <> []) by (destruct suf'; [discriminate | congruence]).
    repeat split.
    + cbn [removelast].
      destruct (split_from fuel sentence_boundary pre' suf') eqn:E;
        [congruence|].
      constructor; [now exists body, c | exact IH1].
    + cbn [tl]. now apply IH3.
    + intros Hu. constructor; [|now apply IH3].
      rewrite Hsuf, ahead_upper_app in Hu; assumption.
    + intros _. constructor; [exact Hskne | now apply IH4].
  - cbn zeta. repeat split.
    + constructor.
    + constructor.
    + intros Hu. now repeat constructor.
    + intros Hne. now repeat constructor.
Qed.

(** X2. Every sentence but the last ends with a period or a question mark;
    every sentence but the first begins with an uppercase letter; and
    unless the text is empty, no sentence is. *)
Theorem sentences_end_and_begin (text : str) :
  let sentences := Re.split sentence_boundary text in
  Forall (fun s => exists body c, s = body ++ [c] /\ is_stop c = true)
         (removelast sentences)
  /\ Forall (fun s => exists c rest, s = c :: rest /\ is_upper c = true)
            (tl sentences)
  /\ (text = [] \/ Forall (fun s => s <> []) sentences).
Proof.
  destruct (split_from_shape (S (length text)) [] text ltac:(lia) eq_refl)
    as (H1 & H2 & _ & H4).
  cbn zeta. repeat split; [exact H1 | |].
  - unfold Re.split. eapply Forall_impl; [|exact H2].
    intros [|c rest] Hu; [discriminate|]. now exists c, rest.
  - destruct text as [|c text]; [now left | right].
    apply H4. discriminate.
Qed.

(** ** What the split takes away *)

Lemma split_from_weave fuel : forall pre suf,
  length suf < fuel ->
  exists first rest,
    split_from fuel sentence_boundary pre suf = first :: map snd rest
    /\ weave first rest = suf
    /\ Forall (fun gp => fst gp <> [] /\ forallb is_space (fst gp) = true) rest.
Proof.
  induction fuel as [|fuel IH]; intros pre suf Hfuel; [lia|].
  cbn [split_from].
  destruct (search sentence_boundary pre suf) as [[skipped [pre' suf']]|] eqn:Hs.
  - pose proof (search_shorter _ _ _ _ _ Hs) as Hshort.
    apply search_some in Hs as (gap & Hsuf & _ & Hne & Hsp & _).
    destruct (IH pre' suf' ltac:(lia)) as (first & rest & Hss & Hw & Hg).
    exists skipped, ((gap, first) :: rest). rewrite Hss. cbn.
    repeat split; [now rewrite Hw, Hsuf | now constructor].
  - exists suf, []. repeat split. constructor.
Qed.

(** X3. The text is its sentences with a run of one or more spaces between
    each two: the split takes away those spaces and nothing else. *)
Theorem split_removes_only_spaces (text : str) :
  exists first rest,
    Re.split sentence_boundary text = first :: map snd rest
    /\ weave first rest = text
    /\ Forall (fun gp => fst gp <> [] /\ forallb is_space (fst gp) = true) rest.
Proof. apply split_from_weave. lia. Qed.

Lemma single_spaced_app_r a b :
  single_spaced (a ++ b) = true -> single_spaced b = true.
Proof.
  induction a as [|x a IH]; [auto|].
  cbn [app single_spaced]. destruct (a ++ b) eqn:E.
  - destruct a; [simpl in E; now subst | discriminate].
  - intros H. apply andb_true_iff in H as [_ H]. auto.
Qed.

Lemma single_spaced_gap gap s :
  gap <> [] -> forallb is_space gap = true ->
  single_spaced (gap ++ s) = true -> gap = py " ".
Proof.
  intros Hne Hsp Hs. destruct gap as [|g [|g' gap]]; [congruence | |].
  - simpl in Hsp. rewrite andb_true_r in Hsp. apply N.eqb_eq in Hsp.
    now subst.
  - simpl in Hsp, Hs.
    apply andb_true_iff in Hsp as [Hg Hsp].
    apply andb_true_iff in Hsp as [Hg' _].
    rewrite Hg, Hg' in Hs. discriminate.
Qed.

Lemma weave_single_spaced rest : forall first,
  single_spaced (weave first rest) = true ->
  Forall (fun gp => fst gp <> [] /\ forallb is_space (fst gp) = true) rest ->
  weave first rest = join (py " ") (first :: map snd rest).
Proof.
  induction rest as [|[gap piece] rest IH]; intros first Hs Hg; [reflexivity|].
  inversion Hg as [|? ? [Hne Hsp] Hg']; subst. cbn [fst] in *.
  cbn [weave] in *.
  apply single_spaced_app_r in Hs.
  rewrite (single_spaced_gap gap _ Hne Hsp Hs).
  apply single_spaced_app_r in Hs.
  rewrite (IH piece Hs Hg'). reflexivity.
Qed.

Lemma join_batches (sep : str) (batches : list (list str)) :
  Forall (fun batch => batch <> []) batches ->
  join sep (map (join sep) batches) = join sep (concat batches).
Proof.
  assert (Hcons : forall (b : list str) (l : list str),
             b <> [] -> l <> [] ->
             join sep (b ++ l) = join sep b ++ sep ++ join sep l).
  { induction b as [|x [|y b] IH]; intros l Hb Hl; [congruence | |].
    - simpl. destruct l; [congruence | reflexivity].
    - change (join sep ((x :: y :: b) ++ l))
        with (x ++ sep ++ join sep ((y :: b) ++ l)).
      rewrite IH by (auto; discriminate).
      change (join sep (x :: y :: b)) with (x ++ sep ++ join sep (y :: b)).
      now rewrite <- !app_assoc. }
  induction batches as [|b [|b' batches] IH]; intros Hne; [reflexivity | |].
  - simpl. now rewrite app_nil_r.
  - inversion Hne as [|? ? Hb Hne']; subst.
    change (join sep (map (join sep) (b :: b' :: batches)))
      with (join sep b ++ sep ++ join sep (map (join sep) (b' :: batches))).
    rewrite (IH Hne'). cbn [concat].
    rewrite (Hcons b (b' ++ concat batches)); [reflexivity | exact Hb |].
    inversion Hne' as [|? ? Hb' _]; subst.
    destruct b'; [congruence | discriminate].
Qed.

Lemma split_text_batches_nonempty text :
  Forall (fun batch => batch <> []) (split_text text).
Proof.
  eapply Forall_impl; [|apply (batch_loop_sizes _ _ [] []);
                         [simpl; lia | constructor]].
  intros [|s b] [H _]; [simpl in H; lia | discriminate].
Qed.

(** Joined with one space, the sentences of a text with no two spaces side
    by side are the text. *)
Lemma joined_sentences_give_text_back (text : str) :
  single_spaced text = true ->
  join (py " ") (Re.split sentence_boundary text) = text.
Proof.
  intros Hs.
  destruct (split_from_weave (S (length text)) [] text ltac:(lia))
    as (first & rest & Hss & Hw & Hg).
  unfold Re.split. rewrite Hss. rewrite <- Hw in Hs |- *.
  symmetry. now apply weave_single_spaced.
Qed.

Lemma joined_batches_are_joined_sentences (text : str) :
  join (py " ") (map (join (py " ")) (split_text text))
  = join (py " ") (Re.split sentence_boundary text).
Proof.
  rewrite join_batches by apply split_text_batches_nonempty.
  unfold split_text. cbn zeta. now rewrite batch_loop_covers.
Qed.

(** X4. A text with no two spaces side by side is got back from its batches
    by joining the sentences of each batch, and then the batches, with one
    space. *)
Theorem joined_batches_give_text_back (text : str) :
  single_spaced text = true ->
  join (py " ") (map (join (py " ")) (split_text text)) = text.
Proof.
  intros Hs. rewrite joined_batches_are_joined_sentences.
  now apply joined_sentences_give_text_back.
Qed.

Lemma joined_batches_give_text_back_witness :
  single_spaced (py "Go on. Be it? So. Do.") = true
  /\ join (py " ") (map (join (py " ")) (split_text (py "Go on. Be it? So. Do.")))
     = py "Go on. Be it? So. Do.".
Proof.
  split; [reflexivity|].
  apply joined_batches_give_text_back. reflexivity.
Defined.

(** ** A sentence is not split again *)

Lemma before_ok_app x pre : before_ok x = true -> before_ok (x ++ pre) = true.
Proof.
  destruct x as [|c3 [|c2 [|c1 x]]]; try discriminate. auto.
Qed.

Lemma count_spaces_app a rest :
  ahead_upper (skipn (count_spaces a) a) = true ->
  count_spaces (a ++ rest) = count_spaces a.
Proof.
  induction a as [|c a IH]; simpl; [discriminate|].
  destruct (is_space c); [intros H; now rewrite IH | reflexivity].
Qed.

(** A boundary inside a piece of text is a boundary of any text around the
    piece. *)
Lemma boundary_here_extend x a pre rest :
  boundary_here x a <> None -> boundary_here (x ++ pre) (a ++ rest) <> None.
Proof.
  unfold boundary_here. cbn zeta.
  destruct (before_ok x) eqn:Hb; [|cbn; congruence].
  destruct (1 <=? count_spaces a)%nat eqn:Hn; [|cbn; congruence].
  destruct (ahead_upper (skipn (count_spaces a) a)) eqn:Hu; [|cbn; congruence].
  intros _. rewrite (before_ok_app _ _ Hb), (count_spaces_app _ _ Hu), Hn.
  rewrite skipn_app.
  rewrite ahead_upper_app, Hu by (destruct (skipn _ a); discriminate).
  discriminate.
Qed.

Lemma piece_not_split s pre rest :
  (forall k, k < length s ->
             boundary_here (rev (firstn k s) ++ pre) (skipn k s ++ rest) = None) ->
  Re.split sentence_boundary s = [s].
Proof.
  intros H. apply split_whole. intros k Hk.
  destruct (Nat.eq_dec k (length s)) as [->|Hne].
  - rewrite skipn_all. unfold boundary_here. simpl.
    now rewrite andb_false_r.
  - destruct (boundary_here (rev (firstn k s)) (skipn k s)) eqn:Hb;
      [exfalso | reflexivity].
    apply (boundary_here_extend (rev (firstn k s)) (skipn k s) pre rest);
      [congruence | apply H; lia].
Qed.

Lemma split_from_stable fuel : forall pre suf,
  length suf < fuel ->
  Forall (fun s => Re.split sentence_boundary s = [s])
         (split_from fuel sentence_boundary pre suf).
Proof.
  induction fuel as [|fuel IH]; intros pre suf Hfuel; [lia|].
  cbn [split_from].
  destruct (search sentence_boundary pre suf) as [[skipped [pre' suf']]|] eqn:Hs.
  - pose proof (search_shorter _ _ _ _ _ Hs) as Hshort.
    apply search_some in Hs as (gap & Hsuf & _ & _ & _ & _ & _ & Hno).
    constructor; [|apply IH; lia].
    apply (piece_not_split skipped pre (gap ++ suf')).
    intros k Hk. specialize (Hno k Hk).
    rewrite Hsuf, skipn_app in Hno.
    replace (k - length skipped) with 0 in Hno by lia. exact Hno.
  - constructor; [|constructor].
    apply (piece_not_split suf pre []). intros k Hk.
    rewrite app_nil_r. apply (proj1 (search_none suf pre) Hs). lia.
Qed.

(** X5. Splitting is stable: every sentence of every batch, given to
    [split_text] on its own, is one batch of that one sentence. *)
Theorem sentences_are_not_split_again (text : str) :
  Forall (Forall (fun s => split_text s = [[s]])) (split_text text).
Proof.
  assert (H : Forall (fun s => split_text s = [[s]])
                     (concat (split_text text))).
  { unfold split_text at 2. cbn zeta. rewrite batch_loop_covers.
    eapply Forall_impl; [|apply split_from_stable; lia].
    intros s Hs. now apply split_text_whole. }
  induction (split_text text) as [|b bs IH]; [constructor|].
  cbn [concat] in H. apply Forall_app in H as [Hb Hbs].
  constructor; auto.
Qed.

(** ** The batches of a text whose last sentence is not repeated *)

Lemma batch_loop_pairs (sentences : list str) :
  forall todo temp_batch sentence_batches,
  (todo <> [] -> last todo [] = last sentences []) ->
  (forall s, In s (removelast todo) -> s <> last sentences []) ->
  length temp_batch <= 1 ->
  (todo = [] -> temp_batch = []) ->
  batch_loop sentences todo temp_batch sentence_batches
  = sentence_batches ++ pairs (temp_batch ++ todo).
Proof.
  induction todo as [|sentence todo' IH]; intros tb sb Hlast Hfresh Hlen Hend.
  - rewrite (Hend eq_refl). simpl. now rewrite app_nil_r.
  - cbn [batch_loop].
    destruct todo' as [|s' todo''].
    + simpl in Hlast. rewrite <- Hlast by discriminate.
      rewrite str_eqb_refl, orb_true_r. cbn [batch_loop].
      destruct tb as [|x [|y tb]]; simpl in Hlen; [reflexivity | reflexivity | lia].
    + assert (Hneq : str_eqb sentence (last sentences []) = false).
      { apply str_eqb_neq, Hfresh. left. reflexivity. }
      rewrite Hneq, orb_false_r.
      assert (Hlast' : s' :: todo'' <> [] ->
                       last (s' :: todo'') [] = last sentences []).
      { intros _. rewrite <- Hlast by discriminate. reflexivity. }
      assert (Hfresh' : forall s, In s (removelast (s' :: todo'')) ->
                                  s <> last sentences []).
      { intros s Hs. apply Hfresh. right. exact Hs. }
      destruct tb as [|x [|y tb]]; simpl in Hlen; [| |lia];
        cbn [app length Nat.leb andb].
      * rewrite IH; [reflexivity | exact Hlast' | exact Hfresh' | simpl; lia |].
        discriminate.
      * rewrite IH; [| exact Hlast' | exact Hfresh' | simpl; lia | reflexivity].
        rewrite <- app_assoc. reflexivity.
Qed.

(** X6. When no sentence before the last has the text of the last, the
    batches are the sentences taken two by two, with the last one alone
    when their number is odd. *)
Theorem batches_are_pairs (text : str) :
  (forall s, In s (removelast (Re.split sentence_boundary text)) ->
             s <> last (Re.split sentence_boundary text) []) ->
  split_text text = pairs (Re.split sentence_boundary text).
Proof.
  intros Hfresh. unfold split_text. cbn zeta.
  rewrite batch_loop_pairs; [reflexivity | reflexivity | exact Hfresh | | ].
  - simpl. lia.
  - reflexivity.
Qed.

Lemma batches_are_pairs_witness :
  (forall s, In s (removelast (Re.split sentence_boundary
                                 (py "We go. You stay? They left. She came. He won."))) ->
             s <> last (Re.split sentence_boundary
                          (py "We go. You stay? They left. She came. He won.")) [])
  /\ split_text (py "We go. You stay? They left. She came. He won.")
     = [[py "We go."; py "You stay?"]; [py "They left."; py "She came."];
        [py "He won."]].
Proof.
  assert (H : forall s,
             In s (removelast (Re.split sentence_boundary
                                 (py "We go. You stay? They left. She came. He won."))) ->
             s <> last (Re.split sentence_boundary
                          (py "We go. You stay? They left. She came. He won.")) []).
  { intros s Hs.
    change (In s [py "We go."; py "You stay?"; py "They left."; py "She came."])
      in Hs.
    change (s <> py "He won.").
    repeat (destruct Hs as [<-|Hs]; [discriminate|]). destruct Hs. }
  split; [exact H|].
  apply (batches_are_pairs (py "We go. You stay? They left. She came. He won.") H).
Defined.

(** X7. There are at most as many batches as sentences and at least half
    as many. *)
Theorem batch_count_bounds (text : str) :
  length (split_text text) <= length (Re.split sentence_boundary text)
  /\ length (Re.split sentence_boundary text) <= 2 * length (split_text text).
Proof.
  assert (Hc : concat (split_text text) = Re.split sentence_boundary text).
  { unfold split_text. cbn zeta. apply batch_loop_covers. }
  assert (Hs : Forall batch_ok (split_text text)).
  { apply (batch_loop_sizes _ _ [] []); [simpl; lia | constructor]. }
  rewrite <- Hc. clear Hc.
  induction Hs as [|b bs [Hb1 Hb2] Hs IH]; [simpl; lia|].
  cbn [concat length]. rewrite length_app. lia.
Qed.

(** ** Calls and results of [correct_text] *)

Section PipelineRuns.

Variables W E : Type.
Variable checker : str -> W -> (E + list ClassificationResult) * W.
Variable corrector : str -> W -> (E + list str) * W.

Local Abbreviation correct_batch' := (correct_batch checker corrector).
Local Abbreviation each_batch' := (each_batch checker corrector).
Local Abbreviation correct_text' := (correct_text checker corrector).

Implicit Types (st : run W) (batch : list str) (r : ClassificationResult).
Implicit Types (text separator : str).

(** Whatever comes of a batch, the calls made for it are the checker's and
    perhaps the corrector's. *)
Lemma correct_batch_calls_shape batch st :
  exists corrected,
    calls (snd (correct_batch' batch st))
    = calls st ++ batch_calls batch corrected.
Proof.
  unfold correct_batch, bind, call_checker, call_corrector, batch_calls.
  destruct (checker (join (py " ") batch) (world st)) as [[e|[|r more]] w'];
    cbn [item0 ret raise snd calls world];
    [exists false; reflexivity | exists false; reflexivity |].
  destruct (needs_correction r); [|exists false; reflexivity].
  exists true. cbn [world calls].
  destruct (corrector (join (py " ") batch) w') as [[e|[|out more']] w''];
    cbn [snd calls]; now rewrite <- app_assoc.
Qed.

Lemma each_batch_calls batches : forall st outs st',
  each_batch' batches st = (inr outs, st') ->
  exists corrected,
    length corrected = length batches
    /\ calls st' = calls st ++ batches_calls batches corrected.
Proof.
  induction batches as [|batch rest IH]; intros st outs st' H.
  - cbn in H. inversion H; subst. exists []. now rewrite app_nil_r.
  - cbn [each_batch] in H.
    destruct (correct_batch' batch st) as [[e|out] st1] eqn:Hb.
    + rewrite (bind_inl _ _ _ _ _ _ _ Hb) in H. discriminate.
    + rewrite (bind_inr _ _ _ _ _ _ _ Hb) in H.
      destruct (each_batch' rest st1) as [[e|outs1] st2] eqn:Hr.
      * rewrite (bind_inl _ _ _ _ _ _ _ Hr) in H. discriminate.
      * rewrite (bind_inr _ _ _ _ _ _ _ Hr) in H. cbn [ret] in H.
        inversion H; subst.
        destruct (IH _ _ _ Hr) as (cs & Hlen & Hcs).
        destruct (correct_batch_calls_shape batch st) as (c & Hc).
        rewrite Hb in Hc. cbn [snd] in Hc.
        exists (c :: cs). split; [simpl; now rewrite Hlen|].
        rewrite Hcs, Hc. cbn [batches_calls]. now rewrite <- app_assoc.
Qed.

(** X8. When [correct_text] returns, it has called the checker once for
    each batch, in order, on the sentences of the batch joined with a
    space; after some of these calls it has called the corrector, once, on
    the same string; and it has made no other call. *)
Theorem calls_of_a_successful_run text separator st out st' :
  correct_text' text separator st = (inr out, st') ->
  exists corrected,
    length corrected = length (split_text text)
    /\ calls_made st st' = batches_calls (split_text text) corrected.
Proof.
  intros H. rewrite correct_text_each in H.
  destruct (each_batch' (split_text text) st) as [[e|outs] st1] eqn:He.
  - rewrite (bind_inl _ _ _ _ _ _ _ He) in H. discriminate.
  - rewrite (bind_inr _ _ _ _ _ _ _ He) in H. cbn [ret] in H.
    inversion H; subst.
    destruct (each_batch_calls _ _ _ _ He) as (cs & Hlen & Hcs).
    exists cs. split; [exact Hlen|].
    unfold calls_made. rewrite Hcs. apply skipn_length_app.
Qed.

(** A checker that finds every string it is given [LABEL_1] with a score of
    at least [0.9]. *)
Lemma each_batch_confident batches :
  (forall raw_text w, exists r more w',
      checker raw_text w = (inr (r :: more), w') /\ confident r) ->
  forall st, exists st',
    each_batch' batches st = (inr (map (join (py " ")) batches), st')
    /\ calls st' = calls st
                   ++ map (fun batch => CallChecker (join (py " ") batch)) batches.
Proof.
  intros Hall. induction batches as [|batch rest IH]; intros st.
  - exists st. cbn. now rewrite app_nil_r.
  - destruct (Hall (join (py " ") batch) (world st)) as (r & more & w' & Hc & Hconf).
    pose proof (correct_batch_passes W E checker corrector batch st r more w' Hc
                  (confident_no_correction r Hconf)) as Hb.
    destruct (IH {| world := w';
                    calls := calls st ++ [CallChecker (join (py " ") batch)] |})
      as (st' & He & Hcalls).
    exists st'. cbn [each_batch].
    rewrite (bind_inr _ _ _ _ _ _ _ Hb), (bind_inr _ _ _ _ _ _ _ He).
    split; [reflexivity|].
    rewrite Hcalls. cbn [calls map]. now rewrite <- app_assoc.
Qed.

(** X9. With a checker that finds every batch [LABEL_1] with a score of at
    least [0.9], [correct_text] returns the batches, each joined with a
    space, joined with the separator; the checker is called once for each
    batch and the corrector never. *)
Theorem confident_checker_passes_all text separator st :
  (forall raw_text w, exists r more w',
      checker raw_text w = (inr (r :: more), w') /\ confident r) ->
  exists st',
    correct_text' text separator st
    = (inr (join separator (map (join (py " ")) (split_text text))), st')
    /\ calls_made st st'
       = map (fun batch => CallChecker (join (py " ") batch)) (split_text text).
Proof.
  intros Hall.
  destruct (each_batch_confident (split_text text) Hall st) as (st' & He & Hc).
  exists st'. rewrite correct_text_each, (bind_inr _ _ _ _ _ _ _ He).
  split; [reflexivity|].
  unfold calls_made. rewrite Hc. apply skipn_length_app.
Qed.

(** X10. Called as the demo calls it, with such a checker and a text with
    no two spaces side by side, [correct_text] returns the text as it
    is. *)
Theorem confident_checker_returns_text text st :
  (forall raw_text w, exists r more w',
      checker raw_text w = (inr (r :: more), w') /\ confident r) ->
  single_spaced text = true ->
  exists st', correct_text_default checker corrector text st = (inr text, st').
Proof.
  intros Hall Hs.
  destruct (each_batch_confident (split_text text) Hall st) as (st' & He & _).
  exists st'. unfold correct_text_default.
  rewrite correct_text_each, (bind_inr _ _ _ _ _ _ _ He). cbn [ret].
  rewrite joined_batches_are_joined_sentences.
  now rewrite joined_sentences_give_text_back.
Qed.

(** X11. A checker that returns an empty list makes [correct_text] raise
    [IndexError], after that call and without a call of the corrector. *)
Theorem no_result_raises_index_error
        text separator st done batch rest outs st1 w' :
  split_text text = done ++ batch :: rest ->
  each_batch' done st = (inr outs, st1) ->
  checker (join (py " ") batch) (world st1) = (inr [], w') ->
  correct_text' text separator st
  = (inl IndexError,
     {| world := w';
        calls := calls st1 ++ [CallChecker (join (py " ") batch)] |}).
Proof.
  intros Hsplit Hdone Hc.
  rewrite correct_text_each, Hsplit.
  apply bind_inl.
  apply (each_batch_raises _ _ _ _ _ _ _ _ _ _ _ _ Hdone).
  unfold correct_batch, bind, call_checker. now rewrite Hc.
Qed.

(** X12. A corrector that returns an empty list, on a batch sent to it,
    makes [correct_text] raise [IndexError] after the two calls. *)
Theorem no_generated_text_raises_index_error
        text separator st done batch rest outs st1 r more w1 w2 :
  split_text text = done ++ batch :: rest ->
  each_batch' done st = (inr outs, st1) ->
  checker (join (py " ") batch) (world st1) = (inr (r :: more), w1) ->
  needs_correction r = true ->
  corrector (join (py " ") batch) w1 = (inr [], w2) ->
  correct_text' text separator st
  = (inl IndexError,
     {| world := w2;
        calls := calls st1 ++ [CallChecker (join (py " ") batch);
                               CallCorrector (join (py " ") batch)] |}).
Proof.
  intros Hsplit Hdone Hc Hn Hr.
  rewrite correct_text_each, Hsplit.
  apply bind_inl.
  apply (each_batch_raises _ _ _ _ _ _ _ _ _ _ _ _ Hdone).
  rewrite (correct_batch_corrects _ _ _ _ _ _ _ _ _ Hc Hn). now rewrite Hr.
Qed.

(** X13. A result that the cell trying the checker prints as "no errors"
    sends its batch to the corrector. *)
Theorem no_errors_label_is_corrected batch st r more w' :
  checker (join (py " ") batch) (world st) = (inr (r :: more), w') ->
  predicted_label r = py "no errors" ->
  In (CallCorrector (join (py " ") batch))
     (calls_made st (snd (correct_batch' batch st))).
Proof.
  intros Hc Hp.
  assert (Hn : needs_correction r = true).
  { unfold predicted_label in Hp. unfold needs_correction.
    destruct (str_eqb (label r) LABEL_1); [discriminate | reflexivity]. }
  rewrite (correct_batch_calls _ _ _ _ _ _ _ _ _ Hc), Hn.
  right. left. reflexivity.
Qed.

(** X14. On a text that holds no boundary [correct_text] does what the body
    of its loop does on the text as the one sentence of one batch: the
    checker sees the text itself, and the separator is not used. *)
Theorem unpunctuated_text_is_checked_whole text separator st :
  (forall c, In c text -> is_stop c = false)
  \/ (forall c, In c text -> is_space c = false)
  \/ (forall c, In c text -> is_upper c = false)
  \/ length text < 5 ->
  join (py " ") [text] = text
  /\ correct_text' text separator st = correct_batch' [text] st.
Proof.
  intros H. split; [reflexivity|].
  rewrite correct_text_each.
  rewrite (split_text_whole text (no_boundary_possible text H)).
  cbn [each_batch]. unfold bind.
  match goal with
  | |- context [correct_batch ?c ?k ?b ?s] =>
      destruct (correct_batch c k b s) as [[e|out] st']
  end; reflexivity.
Qed.

(** X15. With a checker that never answers [LABEL_1] and a corrector that
    generates [fix raw_text] for [raw_text], [correct_text] calls the
    corrector for every batch and returns what it generated, joined with
    the separator. *)
Theorem other_labels_correct_all (fix_ : str -> str) text separator st :
  (forall raw_text w, exists r more w',
      checker raw_text w = (inr (r :: more), w') /\ label r <> LABEL_1) ->
  (forall raw_text w, exists more w',
      corrector raw_text w = (inr (fix_ raw_text :: more), w')) ->
  exists st',
    correct_text' text separator st
    = (inr (join separator
                 (map (fun batch => fix_ (join (py " ") batch)) (split_text text))),
       st')
    /\ calls_made st st'
       = batches_calls (split_text text)
                       (map (fun _ => true) (split_text text)).
Proof.
  intros Hcheck Hfix.
  assert (He : forall batches st0, exists st',
             each_batch' batches st0
             = (inr (map (fun batch => fix_ (join (py " ") batch)) batches), st')
             /\ calls st'
                = calls st0
                  ++ batches_calls batches (map (fun _ => true) batches)).
  { induction batches as [|batch rest IH]; intros st0.
    - exists st0. cbn. now rewrite app_nil_r.
    - destruct (Hcheck (join (py " ") batch) (world st0))
        as (r & more & w1 & Hc & Hl).
      destruct (Hfix (join (py " ") batch) w1) as (more' & w2 & Hr).
      pose proof (correct_batch_corrects W E checker corrector batch st0
                    r more w1 Hc (other_label_correction r Hl)) as Hb.
      rewrite Hr in Hb. cbn [fst snd] in Hb. cbn zeta in Hb.
      destruct (IH {| world := w2;
                      calls := calls st0
                               ++ [CallChecker (join (py " ") batch);
                                   CallCorrector (join (py " ") batch)] |})
        as (st' & He & Hcalls).
      exists st'. cbn [each_batch].
      rewrite (bind_inr _ _ _ _ _ _ _ Hb), (bind_inr _ _ _ _ _ _ _ He).
      split; [reflexivity|].
      rewrite Hcalls. cbn [calls map batches_calls batch_calls app].
      now rewrite <- app_assoc. }
  destruct (He (split_text text) st) as (st' & Hrun & Hcalls).
  exists st'. rewrite correct_text_each, (bind_inr _ _ _ _ _ _ _ Hrun).
  split; [reflexivity|].
  unfold calls_made. rewrite Hcalls. apply skipn_length_app.
Qed.

End PipelineRuns.

(** ** The further theorems at work *)

Lemma calls_of_a_successful_run_witness :
  correct_text (checker_says LABEL_1 just_below) corrector_marks
               (py "We go. You stay? They left.") (py " ") fresh
  = (inr (py "[We go. You stay?] [They left.]"),
     {| world := 4;
        calls := [CallChecker (py "We go. You stay?");
                  CallCorrector (py "We go. You stay?");
                  CallChecker (py "They left.");
                  CallCorrector (py "They left.")] |})
  /\ exists corrected,
       length corrected = length (split_text (py "We go. You stay? They left."))
       /\ calls_made fresh
            {| world := 4;
               calls := [CallChecker (py "We go. You stay?");
                         CallCorrector (py "We go. You stay?");
                         CallChecker (py "They left.");
                         CallCorrector (py "They left.")] |}
          = batches_calls (split_text (py "We go. You stay? They left."))
                          corrected.
Proof.
  split; [reflexivity|].
  apply (calls_of_a_successful_run nat str
           (checker_says LABEL_1 just_below) corrector_marks
           (py "We go. You stay? They left.") (py " ") fresh
           (py "[We go. You stay?] [They left.]")).
  reflexivity.
Defined.

Lemma checker_says_confident raw_text w :
  exists r more w',
    checker_says LABEL_1 threshold raw_text w = (inr (r :: more), w')
    /\ confident r.
Proof.
  exists {| label := LABEL_1; score := threshold |}, [], (S w).
  split; [reflexivity | split; reflexivity].
Defined.

Lemma confident_checker_passes_all_witness :
  (forall raw_text w, exists r more w',
      checker_says LABEL_1 threshold raw_text w = (inr (r :: more), w')
      /\ confident r)
  /\ exists st',
       correct_text (checker_says LABEL_1 threshold) corrector_marks
                    (py "We go.  You stay? They left.") (py "|") fresh
       = (inr (join (py "|")
                    (map (join (py " "))
                         (split_text (py "We go.  You stay? They left.")))),
          st')
       /\ calls_made fresh st'
          = map (fun batch => CallChecker (join (py " ") batch))
                (split_text (py "We go.  You stay? They left.")).
Proof.
  split; [exact checker_says_confident|].
  apply (confident_checker_passes_all nat str
           (checker_says LABEL_1 threshold) corrector_marks
           (py "We go.  You stay? They left.") (py "|") fresh
           checker_says_confident).
Defined.

Lemma confident_checker_returns_text_witness :
  (forall raw_text w, exists r more w',
      checker_says LABEL_1 threshold raw_text w = (inr (r :: more), w')
      /\ confident r)
  /\ single_spaced (py "We go. You stay? They left.") = true
  /\ exists st',
       correct_text_default (checker_says LABEL_1 threshold) corrector_marks
                            (py "We go. You stay? They left.") fresh
       = (inr (py "We go. You stay? They left."), st').
Proof.
  split; [exact checker_says_confident | split; [reflexivity|]].
  apply (confident_checker_returns_text nat str
           (checker_says LABEL_1 threshold) corrector_marks
           (py "We go. You stay? They left.") fresh
           checker_says_confident).
  reflexivity.
Defined.

Lemma no_result_raises_index_error_witness :
  split_text (py "We go. You stay? They left.")
  = [] ++ [py "We go."; py "You stay?"] :: [[py "They left."]]
  /\ each_batch checker_mute corrector_marks [] fresh = (inr [], fresh)
  /\ checker_mute (join (py " ") [py "We go."; py "You stay?"]) (world fresh)
     = (inr [], 1)
  /\ correct_text checker_mute corrector_marks
                  (py "We go. You stay? They left.") (py " ") fresh
     = (inl IndexError,
        {| world := 1; calls := [CallChecker (py "We go. You stay?")] |}).
Proof.
  split; [reflexivity | split; [reflexivity | split; [reflexivity|]]].
  apply (no_result_raises_index_error nat str checker_mute corrector_marks
           (py "We go. You stay? They left.") (py " ") fresh
           [] [py "We go."; py "You stay?"] [[py "They left."]] [] fresh 1);
    reflexivity.
Defined.

Lemma no_generated_text_raises_index_error_witness :
  split_text (py "We go. You stay? They left.")
  = [] ++ [py "We go."; py "You stay?"] :: [[py "They left."]]
  /\ needs_correction {| label := LABEL_1; score := just_below |} = true
  /\ correct_text (checker_says LABEL_1 just_below) corrector_mute
                  (py "We go. You stay? They left.") (py " ") fresh
     = (inl IndexError,
        {| world := 2;
           calls := [CallChecker (py "We go. You stay?");
                     CallCorrector (py "We go. You stay?")] |}).
Proof.
  split; [reflexivity | split; [reflexivity|]].
  apply (no_generated_text_raises_index_error nat str
           (checker_says LABEL_1 just_below) corrector_mute
           (py "We go. You stay? They left.") (py " ") fresh
           [] [py "We go."; py "You stay?"] [[py "They left."]] [] fresh
           {| label := LABEL_1; score := just_below |} [] 1 2);
    reflexivity.
Defined.

Lemma no_errors_label_is_corrected_witness :
  predicted_label {| label := py "LABEL_0"; score := threshold |}
  = py "no errors"
  /\ In (CallCorrector (join (py " ") [py "We go."]))
        (calls_made fresh
           (snd (correct_batch (checker_says (py "LABEL_0") threshold)
                               corrector_marks [py "We go."] fresh))).
Proof.
  split; [reflexivity|].
  apply (no_errors_label_is_corrected nat str
           (checker_says (py "LABEL_0") threshold) corrector_marks
           [py "We go."] fresh
           {| label := py "LABEL_0"; score := threshold |} [] 1);
    reflexivity.
Defined.

Lemma unpunctuated_text_is_checked_whole_witness :
  length (py "Hi.") < 5
  /\ correct_text (checker_says LABEL_1 threshold) corrector_marks
                  (py "Hi.") (py "|") fresh
     = correct_batch (checker_says LABEL_1 threshold) corrector_marks
                     [py "Hi."] fresh.
Proof.
  split; [simpl; lia|].
  apply (unpunctuated_text_is_checked_whole nat str
           (checker_says LABEL_1 threshold) corrector_marks
           (py "Hi.") (py "|") fresh).
  right. right. right. simpl. lia.
Defined.

Lemma other_labels_correct_all_witness :
  (forall raw_text w, exists r more w',
      checker_says (py "LABEL_0") threshold raw_text w = (inr (r :: more), w')
      /\ label r <> LABEL_1)
  /\ (forall raw_text w, exists more w',
         corrector_marks raw_text w
         = (inr ((py "[" ++ raw_text ++ py "]") :: more), w'))
  /\ exists st',
       correct_text (checker_says (py "LABEL_0") threshold) corrector_marks
                    (py "We go. You stay? They left.") (py " ") fresh
       = (inr (py "[We go. You stay?] [They left.]"), st')
       /\ calls_made fresh st'
          = [CallChecker (py "We go. You stay?");
             CallCorrector (py "We go. You stay?");
             CallChecker (py "They left.");
             CallCorrector (py "They left.")].
Proof.
  assert (Hc : forall raw_text w, exists r more w',
             checker_says (py "LABEL_0") threshold raw_text w
             = (inr (r :: more), w')
             /\ label r <> LABEL_1).
  { intros raw_text w.
    exists {| label := py "LABEL_0"; score := threshold |}, [], (S w).
    split; [reflexivity | discriminate]. }
  assert (Hf : forall raw_text w, exists more w',
             corrector_marks raw_text w
             = (inr ((py "[" ++ raw_text ++ py "]") :: more), w')).
  { intros raw_text w. exists [], (S w). reflexivity. }
  split; [exact Hc | split; [exact Hf|]].
  apply (other_labels_correct_all nat str
           (checker_says (py "LABEL_0") threshold) corrector_marks
           (fun raw_text => py "[" ++ raw_text ++ py "]")
           (py "We go. You stay? They left.") (py " ") fresh Hc Hf).
Defined.
